(** * YASMIJ.js: the [Constraint] object and the helpers it calls

  A shallow embedding of [src/dev/Constraint.js], of the two helpers
  [getUniqueArray] and [areObjectsSame] of the [YASMIJ] namespace and of
  the [trim] that comes with them, with the properties the specification
  states about them and further properties of the code.

  Conventions of the embedding.
  - A JavaScript string is a [string]: a sequence of code units, here
    restricted to the code units 0..255.
  - A JavaScript number is a finite IEEE 754 double, held as the rational
    of [Q] it is.  A sum is rounded to the nearest double, ties to the even
    mantissa; changing the sign of a number is exact.  [Infinity] and
    [NaN] are not part of the model.
  - An object that the code enumerates with [for ... in] is an
    association list of its own enumerable properties in enumeration
    order; an object that is only read and written by key is a [gmap].
  - A method that mutates [this] and returns it is a function from the
    old object to the new one.
  - A function that can [throw] returns a [result]. *)

From Stdlib Require Import ZArith QArith Lqa Ascii String.
From stdpp Require Import gmap strings list.

Local Open Scope Z_scope.

(** ** The fragment of the JavaScript runtime the code relies on *)

Module JS.

(** The outcome of a call: a value, or an exception with its message. *)
Inductive result (A : Type) : Type :=
| Return (a : A)
| Throw (msg : string).
Arguments Return {A} a.
Arguments Throw {A} msg.

(** Sequencing: the first exception aborts what follows. *)
Global Instance result_bind : MBind result := fun A B k r =>
  match r with
  | Return a => k a
  | Throw msg => Throw msg
  end.

Definition throws {A : Type} (r : result A) : Prop :=
  exists msg, r = Throw msg.

(** An object read by [for ... in]: own enumerable properties, in
    enumeration order. *)
Abbreviation object V := (list (string * V)).

Fixpoint own {V : Type} (o : object V) (key : string) : option V :=
  match o with
  | [] => None
  | (k, v) :: o' => if String.eqb k key then Some v else own o' key
  end.

(** The names every object inherits from [Object.prototype]; each of
    them is bound to a function (or, for [__proto__], to an object), so
    reading one of them on an object that has no own property of that
    name yields a truthy value that is not a number. *)
Definition Object_prototype : list string :=
  [ "constructor"; "toString"; "toLocaleString"; "valueOf";
    "hasOwnProperty"; "isPrototypeOf"; "propertyIsEnumerable";
    "__proto__"; "__defineGetter__"; "__defineSetter__";
    "__lookupGetter__"; "__lookupSetter__" ].

Definition inherited (key : string) : bool :=
  bool_decide (key ∈ Object_prototype).

(** The character class [\s], on the code units 0..255: tab, line feed,
    vertical tab, form feed, carriage return, space, no-break space. *)
Definition is_space (c : ascii) : bool :=
  match c with
  | "009" | "010" | "011" | "012" | "013" | " " | "160" => true
  | _ => false
  end%char.

(** [str.replace(/\s/g, "")] *)
Fixpoint remove_spaces (str : string) : string :=
  match str with
  | "" => ""
  | String c rest =>
      if is_space c then remove_spaces rest else String c (remove_spaces rest)
  end.

(** [str.indexOf(sub) == 0] *)
Fixpoint starts_with (sub str : string) : bool :=
  match sub, str with
  | "", _ => true
  | String a sub', String b str' => Ascii.eqb a b && starts_with sub' str'
  | String _ _, "" => false
  end.

(** A regular expression that is a plain word, tested anywhere in [str]. *)
Fixpoint includes (sub str : string) : bool :=
  starts_with sub str ||
  match str with
  | "" => false
  | String _ str' => includes sub str'
  end.

(** *** [isNaN] on a string

    [isNaN(name)] converts [name] with [ToNumber] and tests the result
    for NaN.  On a string the conversion succeeds exactly on the
    StringNumericLiteral grammar of ECMAScript: optional white space
    around nothing at all (the number 0), a signed decimal literal, or a
    hexadecimal, binary or octal integer literal. *)

Definition is_digit (c : ascii) : bool :=
  (48 <=? N_of_ascii c)%N && (N_of_ascii c <=? 57)%N.

Definition is_hex_digit (c : ascii) : bool :=
  is_digit c
  || ((65 <=? N_of_ascii c)%N && (N_of_ascii c <=? 70)%N)
  || ((97 <=? N_of_ascii c)%N && (N_of_ascii c <=? 102)%N).

Definition is_binary_digit (c : ascii) : bool :=
  match c with "0" | "1" => true | _ => false end%char.

Definition is_octal_digit (c : ascii) : bool :=
  (48 <=? N_of_ascii c)%N && (N_of_ascii c <=? 55)%N.

Fixpoint all_chars (p : ascii -> bool) (str : string) : bool :=
  match str with
  | "" => true
  | String c rest => p c && all_chars p rest
  end.

Fixpoint drop_while (p : ascii -> bool) (str : string) : string :=
  match str with
  | "" => ""
  | String c rest => if p c then drop_while p rest else str
  end.

Definition starts_with_digit (str : string) : bool :=
  match str with
  | String c _ => is_digit c
  | "" => false
  end.

(** StrWhiteSpace on both ends *)
Definition trim (str : string) : string :=
  String.rev (drop_while is_space (String.rev (drop_while is_space str))).

(** ExponentPart(opt), then the end of the literal *)
Definition exponent_opt (str : string) : bool :=
  match str with
  | "" => true
  | String c rest =>
      (Ascii.eqb c "e" || Ascii.eqb c "E") &&
      let digits :=
        match rest with
        | String "+" rest' | String "-" rest' => rest'
        | _ => rest
        end in
      starts_with_digit digits && String.eqb (drop_while is_digit digits) ""
  end.

(** StrUnsignedDecimalLiteral *)
Definition unsigned_decimal (str : string) : bool :=
  String.eqb str "Infinity" ||
  if starts_with_digit str then
    match drop_while is_digit str with
    | String "." fraction => exponent_opt (drop_while is_digit fraction)
    | rest => exponent_opt rest
    end
  else
    match str with
    | String "." fraction =>
        starts_with_digit fraction && exponent_opt (drop_while is_digit fraction)
    | _ => false
    end.

(** StrDecimalLiteral *)
Definition decimal_literal (str : string) : bool :=
  match str with
  | String "+" rest | String "-" rest => unsigned_decimal rest
  | _ => unsigned_decimal str
  end.

(** NonDecimalIntegerLiteral *)
Definition non_decimal_literal (str : string) : bool :=
  match str with
  | String "0" (String x (String d rest)) =>
      let digits := String d rest in
      if Ascii.eqb x "x" || Ascii.eqb x "X" then all_chars is_hex_digit digits
      else if Ascii.eqb x "b" || Ascii.eqb x "B" then all_chars is_binary_digit digits
      else if Ascii.eqb x "o" || Ascii.eqb x "O" then all_chars is_octal_digit digits
      else false
  | _ => false
  end.

Definition isNaN (name : string) : bool :=
  let literal := trim name in
  negb (String.eqb literal "" || decimal_literal literal
        || non_decimal_literal literal).

(** *** Numbers

    A double is a mantissa of at most 53 bits times a power of two, the
    exponent of the last bit of the mantissa being at least -1074. *)

(** The integer nearest to [n / d], the even one of two nearest. *)
Definition round_half_even (n d : Z) : Z :=
  let q := n / d in
  let r := n mod d in
  if 2 * r <? d then q
  else if d <? 2 * r then q + 1
  else if Z.even q then q else q + 1.

(** The exponent of the last bit of the mantissa of a double near [n / d],
    for [n] and [d] positive: 52 below the exponent of its first bit, and
    -1074 for the numbers too small for that. *)
Definition ulp_exponent (n d : Z) : Z :=
  let k := Z.log2 n - Z.log2 d in
  let reaches := if 0 <=? k then d * 2 ^ k <=? n else d <=? n * 2 ^ (- k) in
  Z.max ((if reaches then k else k - 1) - 52) (-1074).

(** The double nearest to [q]: what a numeric literal denotes and what an
    arithmetic operation returns for the exact result [q].  Beyond the
    largest double the code has [Infinity], which is not part of the
    model; the rounding goes on with larger exponents there. *)
Definition double (q : Q) : Q :=
  let n := Z.abs (Qnum q) in
  let d := Zpos (Qden q) in
  if n =? 0 then 0%Q
  else
    let u := ulp_exponent n d in
    let v :=
      if 0 <=? u then inject_Z (round_half_even n (d * 2 ^ u) * 2 ^ u)
      else (round_half_even (n * 2 ^ (- u)) d # Z.to_pos (2 ^ (- u)))%Q in
    Qred (if Qnum q <? 0 then - v else v)%Q.

(** [a + b] on numbers *)
Definition number_plus (a b : Q) : Q := double (a + b).

End JS.

Import JS.

(** ** The [trim] of engines that have none (part_000)

    [(this||"").replace(/^\s+|\s+$/g, "")]: the first alternative matches
    the white space the text starts with; the second matches at the first
    place from which on there is white space only. *)

Fixpoint remove_trailing_spaces (str : string) : string :=
  match str with
  | "" => ""
  | String c rest =>
      if all_chars is_space str then ""
      else String c (remove_trailing_spaces rest)
  end.

Definition String_prototype_trim (this : string) : string :=
  remove_trailing_spaces (drop_while is_space this).

(** ** The [YASMIJ] namespace ([mixin] in Constraint.js) *)

Module YASMIJ.

(** [!hash[key]] on [var hash = {}]: an own entry holds 1, a name of
    [Object.prototype] reads an inherited function, anything else reads
    [undefined]. *)
Definition hash_falsy (hash : gmap string Z) (key : string) : bool :=
  match hash !! key with
  | Some v => Z.eqb v 0
  | None => negb (inherited key)
  end.

Fixpoint getUniqueArray_loop (arr result : list string)
    (hash : gmap string Z) : list string :=
  match arr with
  | [] => result
  | x :: arr' =>
      if hash_falsy hash x
      then getUniqueArray_loop arr' (result ++ [x]) (<[x := 1]> hash)
      else getUniqueArray_loop arr' result hash
  end.

Definition getUniqueArray (arr : list string) : list string :=
  if Nat.eqb (length arr) 0 then [] else getUniqueArray_loop arr [] ∅.

(** [areObjectsSame(obj1, obj2)] walks the own properties of [obj1] and
    reads the same names in [obj2].  Which branch of the loop body a
    property takes depends on the type of its value, and a property of a
    given name holds the same type of value in every Constraint and in
    every Expression; the function is therefore given per type of object,
    as the instances of one class.  The two objects are two different
    objects of the same class: for an object compared with itself the
    shortcut [obj1 === obj2] of line 47 answers true before anything is
    read.  The test of line 50 reads [obj2.constructor]: on a Constraint
    and on an Expression it is the inherited constructor of the class
    and the test passes; on a plain object of numbers it is told below. *)
Class AreObjectsSame (A : Type) : Type :=
  areObjectsSame : A -> A -> result bool.

(** Lines 59-65, one pass of the loop for a property that holds an
    object in [obj1] and in [obj2]; [next] is the rest of the loop. *)
Definition object_property {A : Type} `{AreObjectsSame A} (a b : A)
    (next : result bool) : result bool :=
  same ← areObjectsSame a b;
  if negb same then Return false else next.

(** Lines 66-69, one pass for a property that holds a number or a string:
    [differ] is [a.toString() !== b.toString()]. *)
Definition scalar_property (differ : bool) (next : result bool) : result bool :=
  if differ then Return false else next.

(** Two numbers print the same text when they are the same number. *)
Definition number_differs (a b : Q) : bool := negb (Qeq_bool a b).

Definition string_differs (a b : string) : bool := negb (String.eqb a b).

(** Lines 53-71 on a plain object whose properties hold numbers, [props]
    being the properties of [obj1] still to visit.  Line 54 calls
    [obj1.hasOwnProperty], which is a number and no function when [obj1]
    has an own property of that name.  Where [obj2] has no own property
    [prop], [b] is a function if [Object.prototype] has [prop], and its
    text is no numeral; otherwise [b] is [undefined] and [b.toString()]
    throws. *)
Fixpoint walk_numbers (obj1 props obj2 : object Q) : result bool :=
  match props with
  | [] => Return true
  | (prop, a) :: props' =>
      match own obj1 "hasOwnProperty" with
      | Some _ => Throw "TypeError: obj1.hasOwnProperty is not a function"
      | None =>
          match own obj2 prop with
          | Some b => scalar_property (number_differs a b)
                        (walk_numbers obj1 props' obj2)
          | None =>
              if inherited prop then Return false
              else Throw "TypeError: b is undefined"
          end
      end
  end.

(** [areObjectsSame] on two plain objects of numbers.  Line 50 reads
    [obj2.constructor]: an own property of that name holds a number, and
    [instanceof] throws on it; otherwise it is the inherited [Object],
    of which the plain object [obj1] is an instance. *)
Definition areObjectsSame_numbers (obj1 obj2 : object Q) : result bool :=
  match own obj2 "constructor" with
  | Some _ => Throw "TypeError: Right-hand side of instanceof is not callable"
  | None => walk_numbers obj1 obj1 obj2
  end.

Global Instance numbers_same : AreObjectsSame (object Q) :=
  areObjectsSame_numbers.

End YASMIJ.

(** ** Expression

  [Expression.js] is not among the sources at hand; [Constraint.js]
  calls its methods on both sides of a constraint. *)

Module Expression.

(** Modelled from the spec: the Expression entity, whose [terms] map a
    term name to its coefficient; the name ["1"] is the constant term.
    Term names are taken in the order the terms were created.  (An engine
    that enumerates the name ["1"] before the others differs in that
    order only; no property below depends on the place of a term.) *)
Record t : Type := mk { terms : object Q }.

(** Modelled from the spec: [terms] is the one own enumerable property
    of an Expression. *)
Global Instance same_Expression : YASMIJ.AreObjectsSame t := fun obj1 obj2 =>
  YASMIJ.object_property (terms obj1) (terms obj2) (Return true).

(** Modelled from the spec: [hasTerm(name)]. *)
Definition hasTerm (name : string) (this : t) : bool :=
  bool_decide (is_Some (own (terms this) name)).

(** Modelled from the spec: [getTermValue(name)], 0 if absent. *)
Definition getTermValue (name : string) (this : t) : Q :=
  default 0%Q (own (terms this) name).

(** Modelled from the spec: what [addTerm] does to [terms]; the missing
    part is the body of [addTerm].  The sum with an existing coefficient
    is a sum of numbers, and is rounded as such. *)
Fixpoint add_to (name : string) (value : Q) (o : object Q) : object Q :=
  match o with
  | [] => [(name, value)]
  | (k, v) :: o' =>
      if String.eqb k name then (k, number_plus v value) :: o'
      else (k, v) :: add_to name value o'
  end.

(** Modelled from the spec: [addTerm(name, value)] adds [value] to the
    existing coefficient for [name] and creates the term if absent. *)
Definition addTerm (name : string) (value : Q) (this : t) : t :=
  mk (add_to name value (terms this)).

(** Modelled from the spec: [removeTerm(name)] deletes the term, no-op
    if absent. *)
Definition removeTerm (name : string) (this : t) : t :=
  mk (filter (fun kv => kv.1 <> name) (terms this)).

(** Modelled from the spec: [scale(factor)] multiplies every coefficient,
    the constant included.  The product is taken as it is, which is what
    the code computes for the factor -1 of [inverse]: changing a sign
    rounds nothing.  No property below is about another factor. *)
Definition scale (factor : Q) (this : t) : t :=
  mk (map (fun kv => (kv.1, (kv.2 * factor)%Q)) (terms this)).

(** Modelled from the spec: [inverse()] is [scale(-1)]. *)
Definition inverse (this : t) : t := scale (-1)%Q this.

(** Modelled from the spec: [forEachVariable(fn)] applies [fn(name, value)]
    to every term but the constant.  [fn] updates the state [S] it closes
    over; the terms visited are those present when the call starts. *)
Definition forEachVariable {S : Type} (fn : string -> Q -> S -> S)
    (this : t) (s : S) : S :=
  foldl (fun s kv => fn kv.1 kv.2 s) s
    (filter (fun kv => kv.1 <> "1") (terms this)).

(** Modelled from the spec: [forEachConstant(fn)] applies [fn(name, value)]
    to the constant term. *)
Definition forEachConstant {S : Type} (fn : string -> Q -> S -> S)
    (this : t) (s : S) : S :=
  foldl (fun s kv => fn kv.1 kv.2 s) s
    (filter (fun kv => kv.1 = "1") (terms this)).

(** Modelled from the spec: [getTermNames()], the names of the terms
    present. *)
Definition getTermNames (this : t) : list string := (terms this).*1.

(** Modelled from the spec: the reader of [parse], a signed sum of terms
    [[sign] coefficient? name?].  [AtTerm signed] waits for a term, after
    a sign if [signed]; [InNumber n d fraction] has read the digits of
    the coefficient [n # d]; [InName coefficient name] has read the
    characters of [name], last one first. *)
Inductive phase : Type :=
| AtTerm (signed : bool)
| InNumber (n : Z) (d : positive) (fraction : bool)
| InName (coefficient : option Q) (name : string).

(** Modelled from the spec: the characters of an identifier name. *)
Definition is_letter (c : ascii) : bool :=
  ((65 <=? N_of_ascii c)%N && (N_of_ascii c <=? 90)%N)
  || ((97 <=? N_of_ascii c)%N && (N_of_ascii c <=? 122)%N)
  || Ascii.eqb c "_".

(** Modelled from the spec: the digits of a numeric coefficient. *)
Definition digit_value (c : ascii) : Z := Z.of_N (N_of_ascii c) - 48.

(** Modelled from the spec: the optional sign of a term. *)
Definition sign_of (c : ascii) : option Q :=
  match c with
  | "+" => Some 1%Q
  | "-" => Some (-1)%Q
  | _ => None
  end%char.

(** Modelled from the spec: the failure of [parse], a ParseError. *)
Definition ParseError : string := "ParseError: not a sum of terms".

(** Modelled from the spec: the term read so far joins the terms, a bare
    number under the name ["1"], a bare name with coefficient 1. *)
Definition finish (sign : Q) (ph : phase) (this : t) : result t :=
  match ph with
  | AtTerm _ => Throw ParseError
  | InNumber n d _ => Return (addTerm "1" (sign * (n # d))%Q this)
  | InName coefficient name =>
      Return (addTerm (String.rev name) (sign * default 1%Q coefficient)%Q this)
  end.

(** Modelled from the spec: one character of the text; a sign ends the
    term before it and may not follow another sign. *)
Definition step (c : ascii) (st : t * Q * phase) : result (t * Q * phase) :=
  let '(this, sign, ph) := st in
  match sign_of c with
  | Some sign' =>
      match ph with
      | AtTerm true => Throw ParseError
      | AtTerm false => Return (this, sign', AtTerm true)
      | _ => this' ← finish sign ph this; Return (this', sign', AtTerm true)
      end
  | None =>
      match ph with
      | AtTerm _ =>
          if is_digit c then Return (this, sign, InNumber (digit_value c) 1 false)
          else if is_letter c then Return (this, sign, InName None (String c ""))
          else Throw ParseError
      | InNumber n d fraction =>
          if is_digit c then
            Return (this, sign,
                    InNumber (n * 10 + digit_value c)
                             (if fraction then d * 10 else d) fraction)
          else if Ascii.eqb c "." && negb fraction then
            Return (this, sign, InNumber n d true)
          else if is_letter c then
            Return (this, sign, InName (Some (n # d)) (String c ""))
          else Throw ParseError
      | InName coefficient name =>
          if is_letter c || is_digit c then
            Return (this, sign, InName coefficient (String c name))
          else Throw ParseError
      end
  end.

(** Modelled from the spec: the text read to its end, where a term must
    have been read. *)
Fixpoint read (str : string) (st : t * Q * phase) : result t :=
  match str with
  | "" => let '(this, sign, ph) := st in finish sign ph this
  | String c rest => st' ← step c st; read rest st'
  end.

(** Modelled from the spec: [Expression.parse(text)], which fails when
    the text is empty or holds a token that is no term. *)
Definition parse (text : string) : result t :=
  read (remove_spaces text) (mk [], 1%Q, AtTerm false).

End Expression.

(** ** Constraint *)

Module Constraint.

Record t : Type := mk {
  comparison : string;
  leftSide : Expression.t;
  rightSide : Expression.t;
  slackValue : Q;
  terms : object Q
}.

(** [new Constraint()] *)
Definition new : t := mk "" (Expression.mk []) (Expression.mk []) 0%Q [].

Definition set_comparison (c : string) (this : t) : t :=
  mk c (leftSide this) (rightSide this) (slackValue this) (terms this).
Definition set_leftSide (e : Expression.t) (this : t) : t :=
  mk (comparison this) e (rightSide this) (slackValue this) (terms this).
Definition set_rightSide (e : Expression.t) (this : t) : t :=
  mk (comparison this) (leftSide this) e (slackValue this) (terms this).
Definition set_slackValue (v : Q) (this : t) : t :=
  mk (comparison this) (leftSide this) (rightSide this) v (terms this).

(** [1e-6] *)
Definition EPSILON : Q := double (1 # 1000000).

(** The own properties in the order the constructor creates them. *)
Global Instance same_Constraint : YASMIJ.AreObjectsSame t := fun obj1 obj2 =>
  YASMIJ.scalar_property
    (YASMIJ.string_differs (comparison obj1) (comparison obj2))
  (YASMIJ.object_property (leftSide obj1) (leftSide obj2)
  (YASMIJ.object_property (rightSide obj1) (rightSide obj2)
  (YASMIJ.scalar_property
    (YASMIJ.number_differs (slackValue obj1) (slackValue obj2))
  (YASMIJ.object_property (terms obj1) (terms obj2)
  (Return true))))).

(** [Constraint.equals.call(this, obj)]: line 33 makes the function a
    property of the constructor, not of the prototype, so that it is
    reached with [this] bound by [call]; a constraint itself has no
    [equals]. *)
Definition equals (this obj : t) : result bool :=
  YASMIJ.areObjectsSame this obj.

(** The class [[<>]] *)
Definition is_lt_gt (c : ascii) : bool :=
  Ascii.eqb c "<" || Ascii.eqb c ">".

(** The class [[+\-]] *)
Definition is_plus_minus (c : ascii) : bool :=
  Ascii.eqb c "+" || Ascii.eqb c "-".

(** The class [[><=+\-]], whose complement is [[^+\-><=]] *)
Definition is_operator (c : ascii) : bool :=
  is_lt_gt c || Ascii.eqb c "=" || is_plus_minus c.

(** [str.match(/[<>]=?|=/g) || []]: the matches from left to right, each
    one starting where the previous one ended. *)
Fixpoint RE_compares (str : string) : list string :=
  match str with
  | "" => []
  | String c rest =>
      if is_lt_gt c then
        match rest with
        | String d rest' =>
            if Ascii.eqb d "=" then String c "=" :: RE_compares rest'
            else String c "" :: RE_compares rest
        | "" => String c "" :: RE_compares rest
        end
      else if Ascii.eqb c "=" then "=" :: RE_compares rest
      else RE_compares rest
  end.

Definition hasManyCompares (str : string) : bool :=
  let matches := RE_compares (remove_spaces str) in
  (1 <? length matches)%nat.

(** [\s+[^+\-><=]] at the head of [str] *)
Fixpoint spaces_then_value (str : string) : bool :=
  match str with
  | "" => false
  | String c rest =>
      is_space c &&
      (match rest with
       | String d _ => negb (is_operator d)
       | "" => false
       end || spaces_then_value rest)
  end.

(** [/[^+\-><=]\s+[^+\-><=]/.test(str)] *)
Fixpoint hasNoOperatorBetweenValues (str : string) : bool :=
  match str with
  | "" => false
  | String c rest =>
      (negb (is_operator c) && spaces_then_value rest)
      || hasNoOperatorBetweenValues rest
  end.

(** [/[+\-][><=+\-]|[><=+\-]$/.test(str)] *)
Fixpoint RE_noLeftAndRightTerms (str : string) : bool :=
  match str with
  | "" => false
  | String c rest =>
      match rest with
      | "" => is_operator c
      | String d _ =>
          (is_plus_minus c && is_operator d) || RE_noLeftAndRightTerms rest
      end
  end.

Definition hasIncompleteBinaryOperator (str : string) : bool :=
  let noSpaceStr := remove_spaces str in
  RE_noLeftAndRightTerms noSpaceStr || hasNoOperatorBetweenValues str.

Definition many_compares_message : string :=
  "Only 1 comparision (<,>,=, >=, <=) is allow in a Constraint.".

Definition incomplete_operator_message : string :=
  "Math operators must be in between terms. Good:(a+b=c). Bad:(a b+=c)".

Definition getErrorMessage (str : string) : option string :=
  let errMsg := if hasManyCompares str then Some many_compares_message else None in
  match errMsg with
  | None =>
      if hasIncompleteBinaryOperator str then Some incomplete_operator_message
      else None
  | Some _ => errMsg
  end.

Definition checkInput (str : string) : result unit :=
  match getErrorMessage str with
  | Some errMsg => Throw errMsg
  | None => Return tt
  end.

(** [str.split(/[><]=?|=/)]: the pieces of [str] between the matches. *)
Fixpoint RE_comparison_split (str : string) : list string :=
  match str with
  | "" => [""]
  | String c rest =>
      if is_lt_gt c then
        match rest with
        | String d rest' =>
            if Ascii.eqb d "=" then "" :: RE_comparison_split rest'
            else "" :: RE_comparison_split rest
        | "" => "" :: RE_comparison_split rest
        end
      else if Ascii.eqb c "=" then "" :: RE_comparison_split rest
      else
        match RE_comparison_split rest with
        | piece :: pieces => String c piece :: pieces
        | [] => [String c ""]
        end
  end.

(** ["" + /[><]=?|=/.exec(str)]: the text of the first match, and
    ["null"] when there is none. *)
Fixpoint RE_comparison_exec (str : string) : string :=
  match str with
  | "" => "null"
  | String c rest =>
      if is_lt_gt c then
        match rest with
        | String d _ => if Ascii.eqb d "=" then String c "=" else String c ""
        | "" => String c ""
        end
      else if Ascii.eqb c "=" then "="
      else RE_comparison_exec rest
  end.

(** [forEachTermFunc.call(sideA, fn)], where [fn] negates the term onto
    [sideB] and removes it from [sideA]; the state of the iteration is the
    pair of the two sides. *)
Definition switchSides (sideA sideB : Expression.t)
    (forEachTermFunc :
       (string -> Q -> Expression.t * Expression.t -> Expression.t * Expression.t) ->
       Expression.t -> Expression.t * Expression.t -> Expression.t * Expression.t)
    : Expression.t * Expression.t :=
  forEachTermFunc
    (fun name value sides =>
       (Expression.removeTerm name sides.1,
        Expression.addTerm name (- value)%Q sides.2))
    sideA (sideA, sideB).

Section getTermNames.

(** [Expression.prototype.getTermNames], whatever it is. *)
Variable Expression_getTermNames : Expression.t -> list string.

Definition getTermNames (this : t) : list string :=
  let arr := Expression_getTermNames (leftSide this)
             ++ Expression_getTermNames (rightSide this) in
  YASMIJ.getUniqueArray arr.

End getTermNames.

Section parse.

(** [Expression.parse], whatever it is. *)
Variable Expression_parse : string -> result Expression.t.

Definition parseToObject (str : string)
    : result (Expression.t * string * Expression.t) :=
  checkInput str;;
  let arr := RE_comparison_split str in
  rhs ← Expression_parse "0";
  lhs ← Expression_parse (default "" (arr !! 0%nat));
  if (1 <? length arr)%nat then
    rhs ← Expression_parse (default "" (arr !! 1%nat));
    Return (lhs, RE_comparison_exec str, rhs)
  else Return (lhs, "=", rhs).

Definition parse (str : string) : result t :=
  '(lhs, comparison, rhs) ← parseToObject str;
  Return (set_rightSide rhs (set_leftSide lhs (set_comparison comparison new))).

End parse.

(** The pair [{a, b}] holds the constraint's own two sides. *)
Definition getSwappedSides (doSwap : bool) (this : t)
    : Expression.t * Expression.t :=
  (if negb doSwap then leftSide this else rightSide this,
   if doSwap then leftSide this else rightSide this).

(** What has been done to [a] and [b] is seen through [this]. *)
Definition putSwappedSides (doSwap : bool)
    (sides : Expression.t * Expression.t) (this : t) : t :=
  if doSwap then set_leftSide sides.2 (set_rightSide sides.1 this)
  else set_rightSide sides.2 (set_leftSide sides.1 this).

(** [/left|right/.test(side)] *)
Definition left_or_right (side : string) : bool :=
  includes "left" side || includes "right" side.

Definition moveTypeToOneSide (varSide numSide : string) (this : t) : t :=
  let this :=
    if left_or_right varSide then
      let doSwap := includes "left" varSide in
      let varSides := getSwappedSides doSwap this in
      putSwappedSides doSwap
        (switchSides varSides.1 varSides.2 Expression.forEachVariable) this
    else this in
  if left_or_right numSide then
    let doSwap := includes "left" numSide in
    let numSides := getSwappedSides doSwap this in
    putSwappedSides doSwap
      (switchSides numSides.1 numSides.2 Expression.forEachConstant) this
  else this.

Definition inverse (this : t) : t :=
  set_rightSide (Expression.inverse (rightSide this))
    (set_leftSide (Expression.inverse (leftSide this)) this).

(** The table is read with the constraint's comparison as the key; a
    comparison is one of the five operators or the empty string of the
    constructor, none of which [Object.prototype] has.  (Read with a
    name of [Object.prototype], the table of the code answers with an
    inherited function, and the comparison is no string afterwards; the
    properties below are about the other comparisons.) *)
Definition oppositeCompare : gmap string string :=
  {[ ">=" := "<"; ">" := "<="; "<=" := ">"; "<" := ">=" ]}.

Definition negateComparison (this : t) : t :=
  match oppositeCompare !! comparison this with
  | Some opposite => inverse (set_comparison opposite this)
  | None => this
  end.

Definition removeStrictInEquality (this : t) : t :=
  if String.eqb (comparison this) "<" || String.eqb (comparison this) ">" then
    let this := set_comparison (comparison this +:+ "=") this in
    let eps := (EPSILON * (if includes ">" (comparison this) then 1 else -1))%Q in
    set_rightSide (Expression.addTerm "1" eps (rightSide this)) this
  else this.

Definition normalize (this : t) : t :=
  removeStrictInEquality (moveTypeToOneSide "left" "right" this).

Definition addSurplus (this : t) : t :=
  let this := set_slackValue (-1)%Q this in
  set_leftSide (Expression.addTerm "surplus" (-1)%Q (leftSide this)) this.

Definition addSlack (this : t) : t :=
  let this := set_slackValue 1%Q this in
  set_leftSide (Expression.addTerm "slack" 1%Q (leftSide this)) this.

Definition getStandardMaxForm (this : t) : t :=
  let this := normalize this in
  let this :=
    if String.eqb (comparison this) "<=" then addSlack this
    else if String.eqb (comparison this) ">=" then addSurplus this
    else this in
  set_comparison "=" this.

Definition scale (factor : Q) (this : t) : t :=
  set_rightSide (Expression.scale factor (rightSide this))
    (set_leftSide (Expression.scale factor (leftSide this)) this).

Definition varSwitchSide (name moveTo : string) (this : t) : t :=
  if negb (left_or_right moveTo) then this
  else
    let name := if isNaN name then name else "1" in
    let toLeft := String.eqb "left" moveTo in
    let sideA := if toLeft then rightSide this else leftSide this in
    let sideB := if negb toLeft then rightSide this else leftSide this in
    if Expression.hasTerm name sideA then
      let sideB' :=
        Expression.addTerm name (- Expression.getTermValue name sideA)%Q sideB in
      let sideA' := Expression.removeTerm name sideA in
      if toLeft then set_leftSide sideB' (set_rightSide sideA' this)
      else set_rightSide sideB' (set_leftSide sideA' this)
    else this.

End Constraint.

(** * The vocabulary of the properties *)

(** The reading of "first occurrence of each name, later duplicates
    removed" that [getUniqueArray] is compared with. *)
Fixpoint first_occurrences (names : list string) : list string :=
  match names with
  | [] => []
  | x :: names' => x :: filter (fun y => y <> x) (first_occurrences names')
  end.

(** No term of [e] is the constant term. *)
Definition only_variables (e : Expression.t) : Prop :=
  Forall (fun kv => kv.1 <> "1") (Expression.terms e).

(** No term of [e] is a variable term. *)
Definition only_constants (e : Expression.t) : Prop :=
  Forall (fun kv => kv.1 = "1") (Expression.terms e).

(** The five comparison operators of a constraint. *)
Definition comparison_operators : list string := ["<"; ">"; "<="; ">="; "="].

(** The value a linear expression takes when each term name stands for a
    number; the constant term is named ["1"] and stands for 1. *)
Fixpoint value_of (rho : string -> Q) (o : object Q) : Q :=
  match o with
  | [] => 0
  | (name, coefficient) :: o' => coefficient * rho name + value_of rho o'
  end%Q.

(** The constraint read as a statement about numbers. *)
Definition holds (rho : string -> Q) (this : Constraint.t) : Prop :=
  let l := value_of rho (Expression.terms (Constraint.leftSide this)) in
  let r := value_of rho (Expression.terms (Constraint.rightSide this)) in
  if String.eqb (Constraint.comparison this) "<" then (l < r)%Q
  else if String.eqb (Constraint.comparison this) "<=" then (l <= r)%Q
  else if String.eqb (Constraint.comparison this) ">" then (r < l)%Q
  else if String.eqb (Constraint.comparison this) ">=" then (r <= l)%Q
  else if String.eqb (Constraint.comparison this) "=" then (l == r)%Q
  else False.

(** The names of the terms of [after] that [before] did not have. *)
Definition introduced (before after : Expression.t) : list string :=
  filter (fun name => Expression.hasTerm name before = false)
    (Expression.getTermNames after).


(** [text] holds two comparison operators, [op2] after [op1], which are not
    the two characters of one ["<="] or [">="]. *)
Definition two_comparisons (text : string) : Prop :=
  exists before op1 between op2 after,
    text = before +:+ op1 +:+ between +:+ op2 +:+ after
    /\ op1 ∈ comparison_operators
    /\ op2 ∈ comparison_operators
    /\ ~ ((op1 = "<" \/ op1 = ">") /\ between = "" /\ op2 = "=").

(** In [text] a [+] or [-] has no right operand: the next character is an
    operator, or there is no next character. *)
Definition plus_minus_without_right_operand (text : string) : Prop :=
  exists before c after,
    text = before +:+ String c after
    /\ (c = "+" \/ c = "-")%char
    /\ match after with
       | "" => True
       | String d _ => Constraint.is_operator d = true
       end.

(** [text] begins with a [+] or a [-]. *)
Definition plus_minus_at_start (text : string) : Prop :=
  exists c after, text = String c after /\ (c = "+" \/ c = "-")%char.

(** The number of matches of [/[<>]=?|=/g], where [pending] tells that the
    character before [str] was a [<] or a [>], which takes a [=] with it. *)
Fixpoint count_compares (pending : bool) (str : string) : nat :=
  match str with
  | "" => 0
  | String c rest =>
      if Constraint.is_lt_gt c then S (count_compares true rest)
      else if Ascii.eqb c "=" then
        (if pending then 0 else 1) + count_compares false rest
      else count_compares false rest
  end.

(** Whether the last character read is a [<] or a [>]. *)
Fixpoint pending_after (pending : bool) (str : string) : bool :=
  match str with
  | "" => pending
  | String c rest => pending_after (Constraint.is_lt_gt c) rest
  end.

(** Every own property of [obj1] is an own property of [obj2] that holds
    the same number, [obj2] has no own property named [constructor] and
    [obj1] none named [hasOwnProperty]. *)
Definition included (obj1 obj2 : object Q) : Prop :=
  own obj2 "constructor" = None
  /\ own obj1 "hasOwnProperty" = None
  /\ forall prop a, (prop, a) ∈ obj1 ->
       exists b, own obj2 prop = Some b /\ (a == b)%Q.

(** What makes the walk of [obj1] against [obj2] throw: an own property
    named [constructor] in [obj2], one named [hasOwnProperty] in [obj1],
    or a property of [obj1] that [obj2] has not, under a name that
    [Object.prototype] has not either. *)
Definition walk_breaks (obj1 obj2 : object Q) : Prop :=
  is_Some (own obj2 "constructor")
  \/ is_Some (own obj1 "hasOwnProperty")
  \/ exists name,
       name ∈ obj1.*1 /\ own obj2 name = None /\ inherited name = false.

(** [obj1] and [obj2] have the same own properties, each with the same
    number. *)
Definition same_properties (obj1 obj2 : object Q) : Prop :=
  forall prop,
    match own obj1 prop, own obj2 prop with
    | Some a, Some b => (a == b)%Q
    | None, None => True
    | _, _ => False
    end.

(** In [text] a white-space character stands between two characters that
    are no operators. *)
Definition value_space_value (text : string) : Prop :=
  exists before x s y after,
    text = before +:+ String x (String s (String y after))
    /\ Constraint.is_operator x = false
    /\ is_space s = true
    /\ Constraint.is_operator y = false.

(** The last character of [text] is an operator. *)
Definition ends_with_operator (text : string) : Prop :=
  exists before c,
    text = before +:+ String c "" /\ Constraint.is_operator c = true.

(** [text] holds none of [<], [>], [=]. *)
Definition no_comparison (text : string) : Prop :=
  all_chars (fun c => negb (Constraint.is_lt_gt c || Ascii.eqb c "=")) text = true.

(** The constraint with its two sides exchanged and its comparison kept. *)
Definition mirrored (this : Constraint.t) : Constraint.t :=
  Constraint.set_rightSide (Constraint.leftSide this)
    (Constraint.set_leftSide (Constraint.rightSide this) this).

(** The side a word does not name: the right side for a word that holds
    [left], the left side otherwise. *)
Definition other_side (side : string) (this : Constraint.t) : Expression.t :=
  if includes "left" side then Constraint.rightSide this
  else Constraint.leftSide this.

(** No term name occurs twice in the constraint, on one side or on both. *)
Definition names_apart (this : Constraint.t) : Prop :=
  NoDup ((Expression.terms (Constraint.leftSide this)).*1
         ++ (Expression.terms (Constraint.rightSide this)).*1).

(** * Properties *)

(** ** The examples of the documentation

    What the comments of Constraint.js and the scenarios of the
    specification say of particular inputs. *)

Example hasManyCompares_example :
  Constraint.hasManyCompares "a < b < c" = true.
Proof. reflexivity. Qed.

Example hasIncompleteBinaryOperator_example :
  Constraint.hasIncompleteBinaryOperator "a + b +" = true.
Proof. reflexivity. Qed.

Example getErrorMessage_example :
  Constraint.getErrorMessage "a + b" = None.
Proof. reflexivity. Qed.

Example checkInput_example :
  Constraint.checkInput "a / b" = Throw Constraint.incomplete_operator_message.
Proof. reflexivity. Qed.

Example normalize_example :
  match Constraint.parse Expression.parse "a + b <= 10" with
  | Return this =>
      Constraint.normalize this =
      Constraint.mk "<=" (Expression.mk [("a", 1%Q); ("b", 1%Q)])
        (Expression.mk [("1", 10%Q)]) 0%Q []
  | Throw _ => False
  end.
Proof. vm_compute. reflexivity. Qed.

Example getStandardMaxForm_example :
  match Constraint.parse Expression.parse "x + y >= 4" with
  | Return this =>
      Constraint.getStandardMaxForm this =
      Constraint.mk "=" (Expression.mk [("x", 1%Q); ("y", 1%Q); ("surplus", (-1)%Q)])
        (Expression.mk [("1", 4%Q)]) (-1)%Q []
  | Throw _ => False
  end.
Proof. vm_compute. reflexivity. Qed.

Example parse_without_comparison :
  Constraint.parse Expression.parse "x - 2y" =
  Return (Constraint.mk "=" (Expression.mk [("x", 1%Q); ("y", (-2)%Q)])
            (Expression.mk [("1", 0%Q)]) 0%Q []).
Proof. vm_compute. reflexivity. Qed.

(** ** Lists *)

Lemma filter_all {A : Type} (P : A -> Prop) `{forall x, Decision (P x)} (l : list A) :
  Forall P l -> filter P l = l.
Proof.
  induction 1 as [|x l Hx Hl IH]; [done|].
  by rewrite filter_cons_True, IH.
Qed.

Lemma filter_none {A : Type} (P : A -> Prop) `{forall x, Decision (P x)} (l : list A) :
  Forall (fun x => ~ P x) l -> filter P l = [].
Proof.
  induction 1 as [|x l Hx Hl IH]; [done|].
  by rewrite filter_cons_False.
Qed.

(** ** Own properties of an association list *)

Section object_facts.

Implicit Types (o : object Q) (name key : string) (value : Q).

Lemma own_None o key :
  own o key = None <-> Forall (fun kv => kv.1 <> key) o.
Proof.
  induction o as [|[k v] o IH]; simpl.
  - split; [constructor|done].
  - destruct (String.eqb_spec k key) as [->|Hne].
    + split; [done|]. by inversion 1.
    + rewrite IH. split; [by constructor|by inversion 1].
Qed.

Lemma own_is_Some o key : is_Some (own o key) <-> key ∈ o.*1.
Proof.
  induction o as [|[k v] o IH]; simpl.
  - split; [by intros [? ?]|by intros ?%elem_of_nil].
  - destruct (String.eqb_spec k key) as [->|Hne].
    + split; [left|by eexists].
    + rewrite IH. rewrite elem_of_cons. split; [by right|].
      by intros [?|?]; [congruence|].
Qed.

Lemma add_to_absent name value o :
  own o name = None -> Expression.add_to name value o = o ++ [(name, value)].
Proof.
  induction o as [|[k v] o IH]; simpl; [done|].
  destruct (String.eqb_spec k name); [done|].
  intros H. by rewrite IH.
Qed.

Lemma add_to_present name value o :
  is_Some (own o name) -> (Expression.add_to name value o).*1 = o.*1.
Proof.
  induction o as [|[k v] o IH]; simpl; [by intros [? ?]|].
  destruct (String.eqb_spec k name); [done|].
  intros H. rewrite !fmap_cons. f_equal. by apply IH.
Qed.




Lemma add_to_keys name value o (P : string -> Prop) :
  P name -> Forall (fun kv => P kv.1) o ->
  Forall (fun kv => P kv.1) (Expression.add_to name value o).
Proof.
  intros Hname. induction 1 as [|[k v] o Hk Ho IH]; simpl.
  - by repeat constructor.
  - destruct (String.eqb k name); constructor; done.
Qed.

End object_facts.

(** ** getUniqueArray *)

Lemma getUniqueArray_loop_spec (arr result : list string) (hash : gmap string Z) :
  (forall k v, hash !! k = Some v -> v = 1) ->
  YASMIJ.getUniqueArray_loop arr result hash =
  result ++ filter (fun y => hash !! y = None)
              (first_occurrences (filter (fun y => y ∉ Object_prototype) arr)).
Proof.
  revert result hash.
  induction arr as [|x arr IH]; intros result hash Hhash; simpl.
  - by rewrite app_nil_r.
  - unfold YASMIJ.hash_falsy, inherited.
    destruct (hash !! x) as [v|] eqn:Hx.
    + rewrite (Hhash _ _ Hx). simpl. rewrite IH by done.
      f_equal. rewrite filter_cons. case_decide; [|done].
      simpl. rewrite filter_cons. rewrite decide_False by (rewrite Hx; done).
      rewrite list_filter_filter. apply list_filter_iff.
      intros y. split; [|by intros [? ?]].
      intros Hy. split; [done|]. intros ->. congruence.
    + case_bool_decide as Hin; simpl.
      * rewrite IH by done. f_equal. rewrite filter_cons.
        rewrite decide_False; [done|]. by intros [].
      * rewrite IH.
        2:{ intros k v. rewrite lookup_insert.
            case_decide; [by intros [= <-]|by apply Hhash]. }
        rewrite <- app_assoc. f_equal. simpl. rewrite filter_cons.
        rewrite decide_True by done. simpl. rewrite filter_cons.
        rewrite decide_True by done. f_equal.
        rewrite list_filter_filter. apply list_filter_iff.
        intros y. rewrite lookup_insert. case_decide as Hy.
        -- subst y. split; [done|]. by intros [_ []].
        -- split; [by intros ?; split; [|congruence]|by intros [? _]].
Qed.

Lemma getUniqueArray_spec (arr : list string) :
  YASMIJ.getUniqueArray arr =
  first_occurrences (filter (fun y => y ∉ Object_prototype) arr).
Proof.
  unfold YASMIJ.getUniqueArray. destruct arr as [|x arr]; [done|].
  change (Nat.eqb (length (x :: arr)) 0) with false. cbv iota.
  rewrite getUniqueArray_loop_spec by (intros k v; by rewrite lookup_empty).
  simpl. apply filter_all, Forall_forall. intros y _. apply lookup_empty.
Qed.

(** C10. [getTermNames()] returns the term names of the left side followed
    by those of the right side, each name at its first occurrence and later
    duplicates removed, except that a name which [Object.prototype] also
    has (such as [constructor] or [toString]) is left out altogether. *)
Theorem getTermNames_first_occurrences
    (Expression_getTermNames : Expression.t -> list string) (this : Constraint.t) :
  Constraint.getTermNames Expression_getTermNames this =
  first_occurrences
    (filter (fun name => name ∉ Object_prototype)
       (Expression_getTermNames (Constraint.leftSide this)
        ++ Expression_getTermNames (Constraint.rightSide this))).
Proof.
  unfold Constraint.getTermNames.
  apply getUniqueArray_spec.
Qed.

(** ** Moving terms across the comparison *)

Section switchSides_facts.

Implicit Types (a b e : Expression.t) (L : list (string * Q)).

Lemma mk_terms e : Expression.mk (Expression.terms e) = e.
Proof. by destruct e. Qed.

Lemma foldl_switch L a b :
  foldl (fun sides kv =>
           (Expression.removeTerm kv.1 sides.1,
            Expression.addTerm kv.1 (- kv.2)%Q sides.2)) (a, b) L =
  (Expression.mk (filter (fun kv => kv.1 ∉ L.*1) (Expression.terms a)),
   foldl (fun b kv => Expression.addTerm kv.1 (- kv.2)%Q b) b L).
Proof.
  revert a b. induction L as [|[k v] L IH]; intros a b; simpl.
  - rewrite filter_all, mk_terms; [done|].
    apply Forall_forall. intros kv _. apply not_elem_of_nil.
  - rewrite IH. f_equal. f_equal. simpl.
    rewrite list_filter_filter. apply list_filter_iff.
    intros kv. rewrite not_elem_of_cons. tauto.
Qed.

Lemma foldl_addTerm_keys (P : string -> Prop) L b :
  Forall (fun kv => P kv.1) L ->
  Forall (fun kv => P kv.1) (Expression.terms b) ->
  Forall (fun kv => P kv.1)
    (Expression.terms
       (foldl (fun b kv => Expression.addTerm kv.1 (- kv.2)%Q b) b L)).
Proof.
  intros HL. revert b. induction HL as [|[k v] L Hk HL IH]; intros b Hb; [done|].
  simpl. apply IH. by apply add_to_keys.
Qed.

Lemma moved_are_gone (P : string * Q -> Prop) `{forall kv, Decision (P kv)}
    (o : object Q) :
  Forall (fun kv => ~ P kv)
    (filter (fun kv => kv.1 ∉ (filter P o).*1) o).
Proof.
  apply Forall_forall. intros [k v] [Hout Hin]%list_elem_of_filter Hk.
  apply Hout. apply (list_elem_of_fmap_2 fst _ (k, v)).
  by apply list_elem_of_filter.
Qed.

End switchSides_facts.

Lemma moveTypeToOneSide_left_right (this : Constraint.t) :
  Constraint.moveTypeToOneSide "left" "right" this =
  let vars :=
    Constraint.switchSides (Constraint.rightSide this) (Constraint.leftSide this)
      (@Expression.forEachVariable _) in
  let nums :=
    Constraint.switchSides vars.2 vars.1 (@Expression.forEachConstant _) in
  Constraint.mk (Constraint.comparison this) nums.1 nums.2
    (Constraint.slackValue this) (Constraint.terms this).
Proof. reflexivity. Qed.

Lemma moveTypeToOneSide_sides (this : Constraint.t) :
  only_variables (Constraint.leftSide (Constraint.moveTypeToOneSide "left" "right" this))
  /\ only_constants (Constraint.rightSide (Constraint.moveTypeToOneSide "left" "right" this)).
Proof.
  rewrite moveTypeToOneSide_left_right.
  unfold Constraint.switchSides, Expression.forEachVariable, Expression.forEachConstant.
  rewrite !foldl_switch. cbn [fst snd Constraint.leftSide Constraint.rightSide].
  split.
  - unfold only_variables. cbn [Expression.terms].
    eapply Forall_impl; [apply moved_are_gone|].
    intros kv Hkv. exact Hkv.
  - unfold only_constants.
    apply (foldl_addTerm_keys (fun k => k = "1")).
    + apply Forall_forall. by intros kv [? _]%list_elem_of_filter.
    + cbn [Expression.terms].
      eapply Forall_impl; [apply moved_are_gone|].
      intros kv Hkv. by apply dec_stable.
Qed.

Lemma moveTypeToOneSide_sorted (this : Constraint.t) :
  only_variables (Constraint.leftSide this) ->
  only_constants (Constraint.rightSide this) ->
  Constraint.moveTypeToOneSide "left" "right" this = this.
Proof.
  intros Hl Hr. rewrite moveTypeToOneSide_left_right.
  unfold Constraint.switchSides, Expression.forEachVariable, Expression.forEachConstant.
  rewrite (filter_none _ (Expression.terms (Constraint.rightSide this))).
  2:{ eapply Forall_impl; [exact Hr|]. intros kv Hkv Hne. by apply Hne. }
  cbn [foldl fst snd].
  rewrite (filter_none _ (Expression.terms (Constraint.leftSide this))).
  2:{ eapply Forall_impl; [exact Hl|]. intros kv Hkv Heq. by apply Hkv. }
  by destruct this.
Qed.

Lemma removeStrictInEquality_sides (this : Constraint.t) :
  Constraint.leftSide (Constraint.removeStrictInEquality this) = Constraint.leftSide this
  /\ (only_constants (Constraint.rightSide this) ->
      only_constants (Constraint.rightSide (Constraint.removeStrictInEquality this))).
Proof.
  unfold Constraint.removeStrictInEquality.
  destruct (_ || _); [|done]. split; [done|].
  intros Hr. by apply (add_to_keys _ _ _ (fun k => k = "1")).
Qed.

Lemma removeStrictInEquality_not_strict (this : Constraint.t) :
  let c := Constraint.comparison (Constraint.removeStrictInEquality this) in
  String.eqb c "<" || String.eqb c ">" = false.
Proof.
  unfold Constraint.removeStrictInEquality.
  destruct (String.eqb_spec (Constraint.comparison this) "<") as [E|E].
  - simpl. by rewrite E.
  - destruct (String.eqb_spec (Constraint.comparison this) ">") as [E'|E'].
    + simpl. by rewrite E'.
    + simpl. by rewrite (proj2 (String.eqb_neq _ _) E), (proj2 (String.eqb_neq _ _) E').
Qed.

Lemma normalize_sides (this : Constraint.t) :
  only_variables (Constraint.leftSide (Constraint.normalize this))
  /\ only_constants (Constraint.rightSide (Constraint.normalize this)).
Proof.
  unfold Constraint.normalize.
  destruct (moveTypeToOneSide_sides this) as [Hl Hr].
  destruct (removeStrictInEquality_sides
              (Constraint.moveTypeToOneSide "left" "right" this)) as [-> Hr'].
  auto.
Qed.

(** C5. Calling [normalize()] on a constraint that [normalize()] returned
    changes nothing: both sides, the comparison and [slackValue] (and the
    unused [terms]) are the same before and after the second call.  This
    holds for every constraint, parsed or not. *)
Theorem normalize_idempotent (this : Constraint.t) :
  Constraint.normalize (Constraint.normalize this) = Constraint.normalize this.
Proof.
  destruct (normalize_sides this) as [Hl Hr].
  unfold Constraint.normalize at 1.
  rewrite moveTypeToOneSide_sorted by done.
  pose proof (removeStrictInEquality_not_strict
                (Constraint.moveTypeToOneSide "left" "right" this)) as Hc.
  fold (Constraint.normalize this) in Hc. simpl in Hc.
  unfold Constraint.removeStrictInEquality at 1. by rewrite Hc.
Qed.

(** ** What [parse] returns *)

Lemma is_lt_gt_true (c : ascii) :
  Constraint.is_lt_gt c = true -> c = "<"%char \/ c = ">"%char.
Proof.
  unfold Constraint.is_lt_gt. intros [H|H]%orb_true_iff; apply Ascii.eqb_eq in H; auto.
Qed.

Lemma RE_comparison_split_cons (str : string) :
  exists piece pieces, Constraint.RE_comparison_split str = piece :: pieces.
Proof.
  destruct str as [|c rest]; simpl; [by eauto|].
  destruct (Constraint.is_lt_gt c).
  - destruct rest as [|d rest']; [by eauto|]. destruct (Ascii.eqb d "="); by eauto.
  - destruct (Ascii.eqb c "="); [by eauto|].
    destruct (Constraint.RE_comparison_split rest); by eauto.
Qed.

Lemma RE_comparison_exec_operator (str : string) :
  (1 < length (Constraint.RE_comparison_split str))%nat ->
  Constraint.RE_comparison_exec str ∈ comparison_operators.
Proof.
  unfold comparison_operators.
  induction str as [|c rest IH]; simpl; [lia|].
  destruct (Constraint.is_lt_gt c) eqn:Hc.
  - intros _. apply is_lt_gt_true in Hc.
    destruct rest as [|d rest']; [|destruct (Ascii.eqb d "=")];
      destruct Hc as [-> | ->]; repeat constructor.
  - destruct (Ascii.eqb c "="); [repeat constructor|].
    destruct (RE_comparison_split_cons rest) as (piece & pieces & Hsplit).
    rewrite Hsplit in IH |- *. exact IH.
Qed.

Lemma parse_shape (Expression_parse : string -> result Expression.t)
    (str : string) (this : Constraint.t) :
  Constraint.parse Expression_parse str = Return this ->
  Constraint.comparison this ∈ comparison_operators
  /\ Constraint.slackValue this = 0%Q
  /\ Constraint.terms this = [].
Proof.
  unfold Constraint.parse, Constraint.parseToObject.
  destruct (Constraint.checkInput str); [|done]. cbn [mbind result_bind].
  destruct (Expression_parse "0") as [rhs0|]; [|done]. cbn [mbind result_bind].
  destruct (Expression_parse (default "" (_ !! 0%nat))) as [lhs|]; [|done].
  cbn [mbind result_bind].
  destruct (1 <? length _)%nat eqn:Hlen.
  - destruct (Expression_parse (default "" (_ !! 1%nat))) as [rhs|]; [|done].
    cbn [mbind result_bind]. intros [= <-]. cbn.
    split; [|done]. apply RE_comparison_exec_operator. by apply Nat.ltb_lt.
  - cbn [mbind result_bind]. intros [= <-]. cbn.
    split; [|done]. unfold comparison_operators. repeat constructor.
Qed.

(** ** The standard form *)

Lemma hasTerm_false (name : string) (e : Expression.t) :
  Expression.hasTerm name e = false <-> own (Expression.terms e) name = None.
Proof.
  unfold Expression.hasTerm. rewrite bool_decide_eq_false.
  rewrite <- eq_None_not_Some. done.
Qed.

Lemma hasTerm_true (name : string) (e : Expression.t) :
  Expression.hasTerm name e = true <-> name ∈ (Expression.terms e).*1.
Proof.
  unfold Expression.hasTerm. rewrite bool_decide_eq_true. apply own_is_Some.
Qed.

Lemma only_variables_no_constant (e : Expression.t) :
  only_variables e -> Expression.hasTerm "1" e = false.
Proof. intros H. by apply hasTerm_false, own_None. Qed.

Lemma only_constants_names (e : Expression.t) (name : string) :
  only_constants e -> Expression.hasTerm name e = true -> name = "1".
Proof.
  intros He [[k v] [-> Hin]]%hasTerm_true%list_elem_of_fmap.
  by apply (proj1 (Forall_forall _ _) He (k, v)).
Qed.

Lemma normalize_comparison (this : Constraint.t) :
  Constraint.comparison this ∈ comparison_operators ->
  Constraint.comparison (Constraint.normalize this) = "<="
  \/ Constraint.comparison (Constraint.normalize this) = ">="
  \/ Constraint.comparison (Constraint.normalize this) = "=".
Proof.
  unfold Constraint.normalize. rewrite moveTypeToOneSide_left_right.
  unfold Constraint.removeStrictInEquality, comparison_operators.
  cbn [Constraint.comparison].
  rewrite !elem_of_cons, elem_of_nil.
  intros [->|[->|[->|[->|[->|[]]]]]]; cbn; auto.
Qed.

Lemma normalize_slackValue (this : Constraint.t) :
  Constraint.slackValue (Constraint.normalize this) = Constraint.slackValue this.
Proof.
  unfold Constraint.normalize. rewrite moveTypeToOneSide_left_right.
  unfold Constraint.removeStrictInEquality. by destruct (_ || _).
Qed.

(** C1, as the code has it. For every successfully parsed Constraint, after
    [getStandardMaxForm()] the comparison is ["="], the left side holds no
    constant term and the right side nothing but the constant term; the
    normalized comparison is ["<="], [">="] or ["="]; if it was ["<="],
    [slackValue] is 1 and, provided the normalized left side held no term
    named [slack], the term [slack] with coefficient 1 has been appended to
    the left side; if it was [">="], [slackValue] is -1 and, provided the
    normalized left side held no term named [surplus], the term [surplus]
    with coefficient -1 has been appended; if it was ["="], no term is
    added and [slackValue] stays 0. *)
Theorem getStandardMaxForm_standard
    (Expression_parse : string -> result Expression.t)
    (str : string) (this : Constraint.t) :
  Constraint.parse Expression_parse str = Return this ->
  let n := Constraint.normalize this in
  let r := Constraint.getStandardMaxForm this in
  Constraint.comparison r = "="
  /\ Expression.hasTerm "1" (Constraint.leftSide r) = false
  /\ (forall name,
        Expression.hasTerm name (Constraint.rightSide r) = true -> name = "1")
  /\ Constraint.rightSide r = Constraint.rightSide n
  /\ (Constraint.comparison n = "<=" \/ Constraint.comparison n = ">="
      \/ Constraint.comparison n = "=")
  /\ (Constraint.comparison n = "<=" ->
        Constraint.slackValue r = 1%Q
        /\ (Expression.hasTerm "slack" (Constraint.leftSide n) = false ->
            Expression.terms (Constraint.leftSide r) =
            Expression.terms (Constraint.leftSide n) ++ [("slack", 1%Q)]))
  /\ (Constraint.comparison n = ">=" ->
        Constraint.slackValue r = (-1)%Q
        /\ (Expression.hasTerm "surplus" (Constraint.leftSide n) = false ->
            Expression.terms (Constraint.leftSide r) =
            Expression.terms (Constraint.leftSide n) ++ [("surplus", (-1)%Q)]))
  /\ (Constraint.comparison n = "=" ->
        Constraint.slackValue r = 0%Q
        /\ Constraint.leftSide r = Constraint.leftSide n).
Proof.
  intros (Hcmp & Hslack & _)%parse_shape n r.
  destruct (normalize_sides this) as [Hl Hr]. fold n in Hl, Hr.
  pose proof (normalize_slackValue this) as Hs. fold n in Hs. rewrite Hslack in Hs.
  pose proof (normalize_comparison this Hcmp) as Hn. fold n in Hn.
  assert (r = Constraint.set_comparison "="
                (if String.eqb (Constraint.comparison n) "<=" then Constraint.addSlack n
                 else if String.eqb (Constraint.comparison n) ">=" then Constraint.addSurplus n
                 else n)) as -> by done.
  destruct Hn as [Hn|[Hn|Hn]]; rewrite Hn; cbn.
  - split; [done|]. split.
    { apply hasTerm_false, own_None.
      by apply (add_to_keys _ _ _ (fun k => k <> "1")). }
    split; [intros name; by apply only_constants_names|].
    repeat split; try done; try (by auto).
    intros Hno%hasTerm_false. by apply add_to_absent.
  - split; [done|]. split.
    { apply hasTerm_false, own_None.
      by apply (add_to_keys _ _ _ (fun k => k <> "1")). }
    split; [intros name; by apply only_constants_names|].
    repeat split; try done; try (by auto).
    intros Hno%hasTerm_false. by apply add_to_absent.
  - split; [done|]. split; [by apply only_variables_no_constant|].
    split; [intros name; by apply only_constants_names|].
    repeat split; try done; by auto.
Qed.

(** C1, witness: ["x + y <= 4"], ["x + y >= 4"] and ["x = 3"]. *)
Lemma getStandardMaxForm_standard_witness :
  (exists this,
     Constraint.parse Expression.parse "x + y <= 4" = Return this
     /\ Constraint.comparison (Constraint.getStandardMaxForm this) = "="
     /\ Constraint.slackValue (Constraint.getStandardMaxForm this) = 1%Q
     /\ Expression.terms (Constraint.leftSide (Constraint.getStandardMaxForm this)) =
        [("x", 1%Q); ("y", 1%Q); ("slack", 1%Q)])
  /\ (exists this,
        Constraint.parse Expression.parse "x + y >= 4" = Return this
        /\ Constraint.slackValue (Constraint.getStandardMaxForm this) = (-1)%Q
        /\ Expression.terms (Constraint.leftSide (Constraint.getStandardMaxForm this)) =
           [("x", 1%Q); ("y", 1%Q); ("surplus", (-1)%Q)])
  /\ (exists this,
        Constraint.parse Expression.parse "x = 3" = Return this
        /\ Constraint.slackValue (Constraint.getStandardMaxForm this) = 0%Q
        /\ Expression.terms (Constraint.leftSide (Constraint.getStandardMaxForm this)) =
           [("x", 1%Q)]).
Proof.
  split; [|split].
  - eexists. split; [vm_compute; reflexivity|].
    match goal with
    | |- context [Constraint.getStandardMaxForm ?c] =>
        pose proof (getStandardMaxForm_standard Expression.parse "x + y <= 4" c
                      eq_refl) as (H1 & _ & _ & _ & _ & H2 & _)
    end.
    split; [exact H1|].
    destruct (H2 eq_refl) as [H3 H4]. split; [exact H3|].
    exact (H4 eq_refl).
  - eexists. split; [vm_compute; reflexivity|].
    match goal with
    | |- context [Constraint.getStandardMaxForm ?c] =>
        pose proof (getStandardMaxForm_standard Expression.parse "x + y >= 4" c
                      eq_refl) as (_ & _ & _ & _ & _ & _ & H2 & _)
    end.
    destruct (H2 eq_refl) as [H3 H4]. split; [exact H3|].
    exact (H4 eq_refl).
  - eexists. split; [vm_compute; reflexivity|].
    match goal with
    | |- context [Constraint.getStandardMaxForm ?c] =>
        pose proof (getStandardMaxForm_standard Expression.parse "x = 3" c
                      eq_refl) as (_ & _ & _ & _ & _ & _ & _ & H2)
    end.
    destruct (H2 eq_refl) as [H3 H4]. split; [exact H3|].
    by rewrite H4.
Defined.

(** C1, as stated, fails on ["slack <= 4"]: the normalized comparison is
    ["<="], yet no term has been appended to the left side and the term
    named [slack] has coefficient 2, not 1. *)
Lemma getStandardMaxForm_slack_collision :
  exists this,
    Constraint.parse Expression.parse "slack <= 4" = Return this
    /\ Constraint.comparison (Constraint.normalize this) = "<="
    /\ Expression.terms (Constraint.leftSide (Constraint.normalize this)) =
       [("slack", 1%Q)]
    /\ Expression.terms (Constraint.leftSide (Constraint.getStandardMaxForm this)) =
       [("slack", 2%Q)]
    /\ ~ (Expression.getTermValue "slack"
            (Constraint.leftSide (Constraint.getStandardMaxForm this)) == 1)%Q.
Proof.
  eexists. split; [vm_compute; reflexivity|].
  repeat split; try (vm_compute; reflexivity).
  vm_compute. discriminate.
Qed.

(** ** Strict inequalities *)

Ltac fields :=
  cbn [Constraint.set_comparison Constraint.set_leftSide Constraint.set_rightSide
       Constraint.set_slackValue Constraint.comparison Constraint.leftSide
       Constraint.rightSide Constraint.slackValue Constraint.terms
       Expression.addTerm Expression.terms] in *.

(** What an added term changes in the value of a side is what it changes
    in the coefficient of its name. *)
Lemma value_of_add_to (rho : string -> Q) (name : string) (value : Q) (o : object Q) :
  (value_of rho (Expression.add_to name value o) ==
   value_of rho o
   + (default 0 (own (Expression.add_to name value o) name)
      - default 0 (own o name)) * rho name)%Q.
Proof.
  induction o as [|[k v] o IH]; simpl.
  - rewrite String.eqb_refl. simpl. ring.
  - destruct (String.eqb_spec k name) as [->|Hne]; simpl.
    + rewrite String.eqb_refl. simpl. ring.
    + rewrite (proj2 (String.eqb_neq _ _) Hne), IH. ring.
Qed.


(** The constraint that [removeStrictInEquality] returns for a strict one
    implies it as soon as the constant of the right side has moved. *)
Lemma relaxed_implies_strict (rho : string -> Q) (this : Constraint.t) (eps : Q) :
  let relaxed :=
    Constraint.set_rightSide (Expression.addTerm "1" eps (Constraint.rightSide this))
      (Constraint.set_comparison (Constraint.comparison this +:+ "=") this) in
  let before := Expression.getTermValue "1" (Constraint.rightSide this) in
  let after := Expression.getTermValue "1" (Constraint.rightSide relaxed) in
  (rho "1" == 1)%Q ->
  (Constraint.comparison this = "<" -> (after < before)%Q ->
   holds rho relaxed -> holds rho this)
  /\ (Constraint.comparison this = ">" -> (before < after)%Q ->
      holds rho relaxed -> holds rho this).
Proof.
  intros relaxed before after Hone.
  pose proof (value_of_add_to rho "1" eps
                (Expression.terms (Constraint.rightSide this))) as Hvalue.
  rewrite Hone in Hvalue. subst relaxed before after.
  unfold holds, Expression.getTermValue.
  destruct this as [c le ri s t]. fields.
  split; intros ->; cbv [String.append];
    cbn [String.eqb Ascii.eqb Bool.eqb]; lra.
Qed.




(** ** Negating the comparison *)

Lemma Qmult_opp1_opp1 (q : Q) : (q * -1 * -1)%Q = q.
Proof.
  destruct q as [n d]. unfold Qmult. cbn [Qnum Qden].
  f_equal; [lia|]. by rewrite !Pos.mul_1_r.
Qed.

Lemma Expression_inverse_inverse (e : Expression.t) :
  Expression.inverse (Expression.inverse e) = e.
Proof.
  destruct e as [o]. unfold Expression.inverse, Expression.scale.
  cbn [Expression.terms]. f_equal.
  induction o as [|[k v] o IH]; [done|].
  cbn [map fst snd]. by rewrite Qmult_opp1_opp1, IH.
Qed.

Lemma oppositeCompare_table :
  Constraint.oppositeCompare !! "<" = Some ">="
  /\ Constraint.oppositeCompare !! ">" = Some "<="
  /\ Constraint.oppositeCompare !! "<=" = Some ">"
  /\ Constraint.oppositeCompare !! ">=" = Some "<"
  /\ Constraint.oppositeCompare !! "=" = None.
Proof. repeat split; vm_compute; reflexivity. Qed.

(** C4. On a constraint whose comparison is one of ["<"], [">"], ["<="],
    [">="], ["="], [negateComparison()] applied twice gives back the
    constraint it started from: the comparison and every coefficient of
    both sides are restored. *)
Theorem negateComparison_involutive (this : Constraint.t) :
  Constraint.comparison this ∈ comparison_operators ->
  Constraint.negateComparison (Constraint.negateComparison this) = this.
Proof.
  destruct oppositeCompare_table as (Hlt & Hgt & Hle & Hge & Heq).
  destruct this as [c l r s t]. unfold comparison_operators.
  rewrite !elem_of_cons, elem_of_nil. cbn [Constraint.comparison].
  unfold Constraint.negateComparison.
  intros [->|[->|[->|[->|[->|[]]]]]]; cbn [Constraint.comparison];
    rewrite ?Hlt, ?Hgt, ?Hle, ?Hge, ?Heq;
    unfold Constraint.inverse; fields;
    rewrite ?Hlt, ?Hgt, ?Hle, ?Hge, ?Heq; fields;
    by rewrite ?Expression_inverse_inverse.
Qed.

(** C4, witness: ["2x - y < 3"], whose negation is ["-2x + y >= -3"]. *)
Lemma negateComparison_involutive_witness :
  let this := Constraint.mk "<" (Expression.mk [("x", 2%Q); ("y", (-1)%Q)])
                (Expression.mk [("1", 3%Q)]) 0%Q [] in
  Constraint.negateComparison this =
    Constraint.mk ">=" (Expression.mk [("x", (-2)%Q); ("y", 1%Q)])
      (Expression.mk [("1", (-3)%Q)]) 0%Q []
  /\ Constraint.negateComparison (Constraint.negateComparison this) = this.
Proof.
  intros this. split; [vm_compute; reflexivity|].
  apply (negateComparison_involutive this). unfold comparison_operators.
  repeat constructor.
Defined.

(** ** Slack and surplus *)

Lemma introduced_addTerm (name : string) (value : Q) (e : Expression.t) :
  introduced e (Expression.addTerm name value e) =
  if Expression.hasTerm name e then [] else [name].
Proof.
  unfold introduced, Expression.getTermNames. cbn [Expression.addTerm Expression.terms].
  destruct (Expression.hasTerm name e) eqn:Hname.
  - rewrite add_to_present.
    2:{ unfold Expression.hasTerm in Hname. by apply bool_decide_eq_true in Hname. }
    apply filter_none, Forall_forall. intros k Hk%hasTerm_true. congruence.
  - rewrite add_to_absent by (by apply hasTerm_false).
    rewrite fmap_app, filter_app. cbn [fmap list_fmap fst].
    rewrite filter_none.
    2:{ apply Forall_forall. intros k Hk%hasTerm_true. congruence. }
    by rewrite filter_cons_True.
Qed.

(** C2, as the code has it. [addSlack()] introduces no term but one named
    [slack], and [addSurplus()] none but one named [surplus], whatever the
    constraint: the left side gains the term [slack] (respectively [surplus])
    if it had no term of that name, and no term otherwise.  The name does
    not depend on the constraint. *)
Theorem addSlack_addSurplus_fixed_names (this : Constraint.t) :
  introduced (Constraint.leftSide this) (Constraint.leftSide (Constraint.addSlack this)) =
    (if Expression.hasTerm "slack" (Constraint.leftSide this) then [] else ["slack"])
  /\ introduced (Constraint.leftSide this) (Constraint.leftSide (Constraint.addSurplus this)) =
    (if Expression.hasTerm "surplus" (Constraint.leftSide this) then [] else ["surplus"]).
Proof.
  unfold Constraint.addSlack, Constraint.addSurplus. fields.
  split; apply introduced_addTerm.
Qed.

(** C2, as stated, fails on ["x <= 4"] and ["y <= 5"], two distinct
    constraints whose slack variables have the same name, and likewise on
    ["x >= 4"] and ["y >= 5"] for the surplus variables. *)
Lemma addSlack_names_collide :
  let le1 := Constraint.mk "<=" (Expression.mk [("x", 1%Q)]) (Expression.mk [("1", 4%Q)]) 0%Q [] in
  let le2 := Constraint.mk "<=" (Expression.mk [("y", 1%Q)]) (Expression.mk [("1", 5%Q)]) 0%Q [] in
  let ge1 := Constraint.set_comparison ">=" le1 in
  let ge2 := Constraint.set_comparison ">=" le2 in
  Constraint.parse Expression.parse "x <= 4" = Return le1
  /\ Constraint.parse Expression.parse "y <= 5" = Return le2
  /\ le1 <> le2
  /\ introduced (Constraint.leftSide le1) (Constraint.leftSide (Constraint.addSlack le1)) = ["slack"]
  /\ introduced (Constraint.leftSide le2) (Constraint.leftSide (Constraint.addSlack le2)) = ["slack"]
  /\ ge1 <> ge2
  /\ introduced (Constraint.leftSide ge1) (Constraint.leftSide (Constraint.addSurplus ge1)) = ["surplus"]
  /\ introduced (Constraint.leftSide ge2) (Constraint.leftSide (Constraint.addSurplus ge2)) = ["surplus"].
Proof.
  repeat split; try (vm_compute; reflexivity); discriminate.
Qed.

(** ** Moving one term *)





(** ** Equality of constraints *)

Lemma own_NoDup (o : object Q) (key : string) (v : Q) :
  NoDup o.*1 -> (key, v) ∈ o -> own o key = Some v.
Proof.
  induction o as [|[k v'] o IH]; [by intros _ ?%elem_of_nil|].
  rewrite fmap_cons, NoDup_cons, elem_of_cons. cbn [fst own].
  intros [Hk Ho] [[= -> ->]|Hin].
  - by rewrite String.eqb_refl.
  - destruct (String.eqb_spec k key) as [->|_]; [|by apply IH].
    destruct Hk. by apply (list_elem_of_fmap_2 fst _ (key, v)).
Qed.

(** C8 fails on ["x <= 4"] and ["x + y <= 4"]: the two constraints differ in
    the term [y] of the left side, yet [equals] answers true, because
    [areObjectsSame] reads in the second object only the properties the
    first one has.  The other way round the call throws, because
    [b.toString()] is called on the [undefined] it reads for [y]. *)
Theorem equals_ignores_extra_terms :
  exists a b,
    Constraint.parse Expression.parse "x <= 4" = Return a
    /\ Constraint.parse Expression.parse "x + y <= 4" = Return b
    /\ Expression.hasTerm "y" (Constraint.leftSide a) = false
    /\ Expression.getTermValue "y" (Constraint.leftSide b) = 1%Q
    /\ Constraint.equals a b = Return true
    /\ Constraint.equals b a = Throw "TypeError: b is undefined".
Proof.
  do 2 eexists. split; [vm_compute; reflexivity|].
  split; [vm_compute; reflexivity|].
  repeat split; vm_compute; reflexivity.
Qed.

(** ** The checks of [parse] *)

Lemma append_nil_l (s : string) : "" +:+ s = s.
Proof. reflexivity. Qed.

Lemma append_cons (c : ascii) (s t : string) :
  String c s +:+ t = String c (s +:+ t).
Proof. reflexivity. Qed.

Lemma count_compares_pending (c : ascii) (rest : string) :
  Ascii.eqb c "=" = false ->
  count_compares true (String c rest) = count_compares false (String c rest).
Proof. intros Hc. cbn [count_compares]. by rewrite Hc. Qed.

Lemma RE_compares_cons (c : ascii) (rest : string) :
  Constraint.RE_compares (String c rest) =
  if Constraint.is_lt_gt c then
    match rest with
    | String d rest' =>
        if Ascii.eqb d "=" then String c "=" :: Constraint.RE_compares rest'
        else String c "" :: Constraint.RE_compares rest
    | "" => String c "" :: Constraint.RE_compares rest
    end
  else if Ascii.eqb c "=" then "=" :: Constraint.RE_compares rest
  else Constraint.RE_compares rest.
Proof. reflexivity. Qed.

Lemma count_compares_cons (pending : bool) (c : ascii) (rest : string) :
  count_compares pending (String c rest) =
  if Constraint.is_lt_gt c then S (count_compares true rest)
  else if Ascii.eqb c "=" then
    ((if pending then 0 else 1) + count_compares false rest)%nat
  else count_compares false rest.
Proof. reflexivity. Qed.

Lemma RE_compares_length (str : string) :
  length (Constraint.RE_compares str) = count_compares false str.
Proof.
  enough (length (Constraint.RE_compares str) = count_compares false str
          /\ forall c, length (Constraint.RE_compares (String c str)) =
                       count_compares false (String c str)) by tauto.
  induction str as [|d rest [IH1 IH2]].
  - split; [done|]. intros c. cbn.
    destruct (Constraint.is_lt_gt c); [done|]. by destruct (Ascii.eqb c "=").
  - split; [apply IH2|]. intros c.
    rewrite (RE_compares_cons c), (count_compares_cons false c).
    destruct (Constraint.is_lt_gt c).
    + destruct (Ascii.eqb d "=") eqn:Hd.
      * cbn [length]. rewrite IH1, (count_compares_cons true d), Hd.
        assert (Constraint.is_lt_gt d = false) as ->; [|done].
        apply Ascii.eqb_eq in Hd. by subst d.
      * cbn [length]. rewrite IH2. f_equal. symmetry.
        by apply count_compares_pending.
    + destruct (Ascii.eqb c "="); cbn [length]; by rewrite IH2.
Qed.

Lemma count_compares_app (pending : bool) (s t : string) :
  count_compares pending (s +:+ t) =
  (count_compares pending s + count_compares (pending_after pending s) t)%nat.
Proof.
  revert pending. induction s as [|c s IH]; intros pending; [done|].
  rewrite append_cons. cbn [count_compares pending_after].
  destruct (Constraint.is_lt_gt c) eqn:Hc; [by rewrite IH|].
  destruct (Ascii.eqb c "="); rewrite IH; lia.
Qed.

Lemma pending_after_app (pending : bool) (s t : string) :
  pending_after pending (s +:+ t) = pending_after (pending_after pending s) t.
Proof.
  revert pending. induction s as [|c s IH]; intros pending; [done|].
  rewrite append_cons. cbn [pending_after]. apply IH.
Qed.

Lemma pending_after_counted (pending : bool) (s : string) :
  pending_after pending s = true ->
  (s = "" /\ pending = true) \/ (1 <= count_compares pending s)%nat.
Proof.
  revert pending. induction s as [|c s IH]; intros pending; [by left|].
  cbn [pending_after count_compares]. intros [[-> Hc]|Hs]%IH; right.
  - rewrite Hc. lia.
  - destruct (Constraint.is_lt_gt c); [lia|].
    destruct (Ascii.eqb c "="); lia.
Qed.

Lemma operator_counted (op : string) (pending : bool) :
  op ∈ comparison_operators ->
  count_compares false op = 1%nat
  /\ (op <> "=" -> count_compares pending op = 1%nat)
  /\ (pending_after pending op = true -> op = "<" \/ op = ">").
Proof.
  unfold comparison_operators. rewrite !elem_of_cons, elem_of_nil.
  intros [->|[->|[->|[->|[->|[]]]]]]; destruct pending; cbn;
    repeat split; intros; try done; auto.
Qed.

Lemma two_comparisons_counted (text : string) :
  two_comparisons text -> (2 <= count_compares false text)%nat.
Proof.
  intros (before & op1 & between & op2 & after & -> & Hop1 & Hop2 & Hnot).
  rewrite !count_compares_app.
  set (f1 := pending_after false before).
  set (f2 := pending_after f1 op1).
  set (f3 := pending_after f2 between).
  destruct (operator_counted op1 f1 Hop1) as (H1 & _ & H1').
  destruct (operator_counted op2 f3 Hop2) as (H2 & H2' & _).
  assert (1 <= count_compares false before + count_compares f1 op1)%nat.
  { destruct f1 eqn:Hf1; [|lia].
    destruct (pending_after_counted _ _ Hf1) as [[_ [=]]|]. lia. }
  assert (1 <= count_compares f2 between + count_compares f3 op2)%nat.
  { destruct f3 eqn:Hf3; [|lia].
    destruct (pending_after_counted _ _ Hf3) as [[-> Hf2]|]; [|lia].
    destruct (decide (op2 = "=")) as [->|Hne]; [|rewrite H2' by done; lia].
    exfalso. apply Hnot. split; [|done]. apply H1'. exact Hf2. }
  lia.
Qed.


Lemma RE_comparison_split_cons_eq (c : ascii) (rest : string) :
  Constraint.RE_comparison_split (String c rest) =
  if Constraint.is_lt_gt c then
    match rest with
    | String d rest' =>
        if Ascii.eqb d "=" then "" :: Constraint.RE_comparison_split rest'
        else "" :: Constraint.RE_comparison_split rest
    | "" => "" :: Constraint.RE_comparison_split rest
    end
  else if Ascii.eqb c "=" then "" :: Constraint.RE_comparison_split rest
  else
    match Constraint.RE_comparison_split rest with
    | piece :: pieces => String c piece :: pieces
    | [] => [String c ""]
    end.
Proof. reflexivity. Qed.











Lemma is_plus_minus_operator (c : ascii) :
  (c = "+" \/ c = "-")%char ->
  Constraint.is_plus_minus c = true /\ Constraint.is_operator c = true.
Proof. by intros [-> | ->]. Qed.

Lemma RE_noLeftAndRightTerms_found (text : string) :
  plus_minus_without_right_operand text ->
  Constraint.RE_noLeftAndRightTerms text = true.
Proof.
  intros (before & c & after & -> & [Hpm Hop]%is_plus_minus_operator & Hafter).
  induction before as [|b before IH].
  - rewrite append_nil_l. cbn [Constraint.RE_noLeftAndRightTerms].
    destruct after as [|d after]; [done|]. by rewrite Hpm, Hafter.
  - rewrite append_cons. cbn [Constraint.RE_noLeftAndRightTerms].
    destruct (before +:+ String c after) eqn:Hrest.
    + by destruct before.
    + rewrite IH. apply orb_true_r.
Qed.

(** C7, as the code has it. An input in which a [+] or a [-] has no right
    operand, being followed by another [+] or [-] or by a comparison
    operator, or being the last character, makes [Constraint.parse] throw,
    whatever [Expression.parse] is; white space does not count.  In
    particular ["a + + b = 3"] fails. *)
Theorem parse_rejects_incomplete_operator
    (Expression_parse : string -> result Expression.t) (str : string) :
  plus_minus_without_right_operand (remove_spaces str) ->
  throws (Constraint.parse Expression_parse str).
Proof.
  intros H%RE_noLeftAndRightTerms_found.
  unfold Constraint.parse, Constraint.parseToObject, Constraint.checkInput,
    Constraint.getErrorMessage, Constraint.hasIncompleteBinaryOperator.
  rewrite H. cbn [orb].
  destruct (Constraint.hasManyCompares str); by eexists.
Qed.

(** C7, witness: ["a + + b = 3"], and ["a + b +"]. *)
Lemma parse_rejects_incomplete_operator_witness :
  throws (Constraint.parse Expression.parse "a + + b = 3")
  /\ throws (Constraint.parse Expression.parse "a + b +").
Proof.
  split.
  - apply (parse_rejects_incomplete_operator Expression.parse "a + + b = 3").
    exists "a", "+"%char, "+b=3". by auto.
  - apply (parse_rejects_incomplete_operator Expression.parse "a + b +").
    exists "a+b", "+"%char, "". by auto.
Defined.

(** C7, as stated, fails on ["-x <= 3"]: the [-] stands at the boundary of
    the string, as its first character, with no operand on its left; the
    check reports nothing and the input is parsed, the [-] being the sign
    of [x]. *)
Lemma parse_accepts_leading_sign :
  plus_minus_at_start (remove_spaces "-x <= 3")
  /\ Constraint.getErrorMessage "-x <= 3" = None
  /\ Constraint.parse Expression.parse "-x <= 3" =
     Return (Constraint.mk "<=" (Expression.mk [("x", (-1)%Q)])
               (Expression.mk [("1", 3%Q)]) 0%Q []).
Proof.
  split; [|split]; [|vm_compute; reflexivity..].
  exists "-"%char, "x<=3". by auto.
Qed.

(** * Further properties *)

(** ** getUniqueArray as a set *)

Lemma filter_sublist {A : Type} (P : A -> Prop) `{forall x, Decision (P x)} (l : list A) :
  filter P l `sublist_of` l.
Proof.
  induction l as [|x l IH]; [constructor|].
  rewrite filter_cons. destruct (decide (P x)); by constructor.
Qed.

Lemma first_occurrences_elem (names : list string) (x : string) :
  x ∈ first_occurrences names <-> x ∈ names.
Proof.
  induction names as [|y names IH]; [done|].
  cbn [first_occurrences]. rewrite !elem_of_cons, list_elem_of_filter, IH.
  destruct (decide (x = y)); tauto.
Qed.

Lemma first_occurrences_NoDup (names : list string) :
  NoDup (first_occurrences names).
Proof.
  induction names as [|y names IH]; [constructor|].
  cbn [first_occurrences]. apply NoDup_cons. split.
  - rewrite list_elem_of_filter. tauto.
  - by apply NoDup_filter.
Qed.

Lemma first_occurrences_sublist (names : list string) :
  first_occurrences names `sublist_of` names.
Proof.
  induction names as [|y names IH]; [constructor|].
  cbn [first_occurrences]. apply sublist_skip.
  etrans; [apply filter_sublist|exact IH].
Qed.

Lemma first_occurrences_id (names : list string) :
  NoDup names -> first_occurrences names = names.
Proof.
  induction 1 as [|y names Hy Hnames IH]; [done|].
  cbn [first_occurrences]. rewrite IH. f_equal.
  apply filter_all, Forall_forall. intros x Hx ->. done.
Qed.

(** X1. Whatever the array, [getUniqueArray] returns a selection of its
    elements in their order, without duplicates, that holds exactly the
    elements of the array that are no names of [Object.prototype]. *)
Theorem getUniqueArray_selection (arr : list string) :
  YASMIJ.getUniqueArray arr `sublist_of` arr
  /\ NoDup (YASMIJ.getUniqueArray arr)
  /\ forall x, x ∈ YASMIJ.getUniqueArray arr <-> x ∈ arr /\ x ∉ Object_prototype.
Proof.
  rewrite getUniqueArray_spec. split; [|split].
  - etrans; [apply first_occurrences_sublist|apply filter_sublist].
  - apply first_occurrences_NoDup.
  - intros x. rewrite first_occurrences_elem, list_elem_of_filter. tauto.
Qed.

(** X2. [getUniqueArray] returns as it is an array that has no duplicates
    and no name of [Object.prototype]; applied to its own result it
    changes nothing. *)
Theorem getUniqueArray_fixed (arr : list string) :
  (NoDup arr -> Forall (fun x => x ∉ Object_prototype) arr ->
   YASMIJ.getUniqueArray arr = arr)
  /\ YASMIJ.getUniqueArray (YASMIJ.getUniqueArray arr) = YASMIJ.getUniqueArray arr.
Proof.
  assert (forall l, NoDup l -> Forall (fun x => x ∉ Object_prototype) l ->
            YASMIJ.getUniqueArray l = l) as Hfixed.
  { intros l Hnodup Hnames.
    by rewrite getUniqueArray_spec, filter_all, first_occurrences_id. }
  split; [apply Hfixed|].
  apply Hfixed; rewrite getUniqueArray_spec.
  - apply first_occurrences_NoDup.
  - apply Forall_forall. intros x Hx%first_occurrences_elem%list_elem_of_filter.
    tauto.
Qed.

(** X2, witness: ["a"; "b"; "1"]. *)
Lemma getUniqueArray_fixed_witness :
  YASMIJ.getUniqueArray ["a"; "b"; "1"] = ["a"; "b"; "1"].
Proof.
  apply (getUniqueArray_fixed ["a"; "b"; "1"]);
    by apply (bool_decide_unpack _).
Defined.

(** ** areObjectsSame as an inclusion *)

Lemma own_Some_elem (o : object Q) (key : string) (v : Q) :
  own o key = Some v -> (key, v) ∈ o.
Proof.
  induction o as [|[k v'] o IH]; cbn [own]; [done|].
  destruct (String.eqb_spec k key) as [->|Hne].
  - intros [= ->]. left.
  - intros H. right. auto.
Qed.

Lemma walk_numbers_true (obj1 props obj2 : object Q) :
  own obj1 "hasOwnProperty" = None ->
  YASMIJ.walk_numbers obj1 props obj2 = Return true <->
  forall prop a, (prop, a) ∈ props ->
    exists b, own obj2 prop = Some b /\ (a == b)%Q.
Proof.
  intros Hown. induction props as [|[prop a] props IH].
  - split; [by intros _ ? ? ?%elem_of_nil|done].
  - cbn [YASMIJ.walk_numbers]. rewrite Hown.
    unfold YASMIJ.scalar_property, YASMIJ.number_differs. split.
    + destruct (own obj2 prop) as [b|] eqn:Hb; [|by destruct (inherited prop)].
      destruct (Qeq_bool a b) eqn:Hab; [|done]. cbn [negb].
      intros Hrest prop' a' [[= -> ->]|Hin]%elem_of_cons.
      * exists b. split; [done|]. by apply Qeq_bool_iff.
      * by apply (proj1 IH Hrest).
    + intros Hall. destruct (Hall prop a) as (b & -> & Hab); [left|].
      rewrite (proj2 (Qeq_bool_iff a b) Hab). cbn [negb].
      apply (proj2 IH). intros prop' a' Hin. apply Hall. by right.
Qed.

Lemma areObjectsSame_numbers_true (obj1 obj2 : object Q) :
  YASMIJ.areObjectsSame_numbers obj1 obj2 = Return true <-> included obj1 obj2.
Proof.
  unfold included, YASMIJ.areObjectsSame_numbers.
  destruct (own obj2 "constructor") as [c|]; [split; [done|by intros [? _]]|].
  destruct (own obj1 "hasOwnProperty") as [h|] eqn:Hown.
  - split; [|by intros (_ & ? & _)].
    destruct obj1 as [|[prop a] obj1]; [done|].
    cbn [YASMIJ.walk_numbers]. by rewrite Hown.
  - rewrite (walk_numbers_true _ _ _ Hown). split; [done|by intros (_ & _ & ?)].
Qed.

Lemma walk_numbers_Throw (obj1 props obj2 : object Q) (msg : string) :
  YASMIJ.walk_numbers obj1 props obj2 = Throw msg ->
  is_Some (own obj1 "hasOwnProperty")
  \/ exists name,
       name ∈ props.*1 /\ own obj2 name = None /\ inherited name = false.
Proof.
  induction props as [|[prop a] props IH]; [done|].
  cbn [YASMIJ.walk_numbers].
  destruct (own obj1 "hasOwnProperty") as [h|]; [by left|].
  unfold YASMIJ.scalar_property.
  destruct (own obj2 prop) as [b|] eqn:Hb.
  - destruct (YASMIJ.number_differs a b); [done|].
    intros [?|(name & Hin & Hrest)]%IH; [by left|]. right. exists name.
    split; [|done]. rewrite fmap_cons. by right.
  - destruct (inherited prop) eqn:Hi; [done|]. intros _. right. exists prop.
    split; [|done]. rewrite fmap_cons. left.
Qed.

Lemma areObjectsSame_numbers_Throw (obj1 obj2 : object Q) (msg : string) :
  YASMIJ.areObjectsSame_numbers obj1 obj2 = Throw msg -> walk_breaks obj1 obj2.
Proof.
  unfold YASMIJ.areObjectsSame_numbers, walk_breaks.
  destruct (own obj2 "constructor") as [c|]; [by left|].
  intros [?|?]%walk_numbers_Throw; by auto.
Qed.

Lemma included_trans (obj1 obj2 obj3 : object Q) :
  included obj1 obj2 -> included obj2 obj3 -> included obj1 obj3.
Proof.
  intros (_ & Hown & H12) (Hconstructor & _ & H23).
  split; [done|]. split; [done|].
  intros prop a (b & Hb%own_Some_elem & Hab)%H12.
  destruct (H23 prop b Hb) as (c & Hc & Hbc). exists c. split; [done|].
  by rewrite Hab.
Qed.

Lemma included_both (obj1 obj2 : object Q) :
  NoDup obj1.*1 -> NoDup obj2.*1 ->
  included obj1 obj2 /\ included obj2 obj1 <->
  same_properties obj1 obj2
  /\ own obj1 "constructor" = None /\ own obj1 "hasOwnProperty" = None.
Proof.
  intros Hn1 Hn2. unfold same_properties. split.
  - intros [(_ & Hh1 & H12) (Hc1 & _ & H21)]. split; [|done]. intros prop.
    destruct (own obj1 prop) as [a|] eqn:Ha.
    + apply own_Some_elem in Ha. by destruct (H12 prop a Ha) as (b & -> & Hab).
    + destruct (own obj2 prop) as [b|] eqn:Hb; [|done].
      apply own_Some_elem in Hb. destruct (H21 prop b Hb) as (a & Ha' & _).
      congruence.
  - intros (Hsame & Hc1 & Hh1).
    assert (forall name, own obj1 name = None -> own obj2 name = None) as Hnone.
    { intros name Hname. specialize (Hsame name). rewrite Hname in Hsame.
      by destruct (own obj2 name). }
    split; (split; [by auto|]); (split; [by auto|]).
    + intros prop a Hin%own_NoDup; [|done]. specialize (Hsame prop).
      rewrite Hin in Hsame. destruct (own obj2 prop) as [b|]; [by eauto|done].
    + intros prop b Hin%own_NoDup; [|done]. specialize (Hsame prop).
      rewrite Hin in Hsame. destruct (own obj1 prop) as [a|]; [|done].
      exists a. split; [done|]. by symmetry.
Qed.

Lemma included_same (o : object Q) :
  NoDup o.*1 -> own o "constructor" = None -> own o "hasOwnProperty" = None ->
  included o o.
Proof.
  intros Hnodup Hc Hh. split; [done|]. split; [done|].
  intros prop a Hin. exists a. split; [by apply own_NoDup|reflexivity].
Qed.

Lemma equals_stages (this obj : Constraint.t) :
  Constraint.equals this obj =
  if String.eqb (Constraint.comparison this) (Constraint.comparison obj) then
    left ← YASMIJ.areObjectsSame_numbers
             (Expression.terms (Constraint.leftSide this))
             (Expression.terms (Constraint.leftSide obj));
    if negb left then Return false else
    right ← YASMIJ.areObjectsSame_numbers
              (Expression.terms (Constraint.rightSide this))
              (Expression.terms (Constraint.rightSide obj));
    if negb right then Return false else
    if Qeq_bool (Constraint.slackValue this) (Constraint.slackValue obj) then
      terms ← YASMIJ.areObjectsSame_numbers
                (Constraint.terms this) (Constraint.terms obj);
      if negb terms then Return false else Return true
    else Return false
  else Return false.
Proof.
  unfold Constraint.equals, YASMIJ.areObjectsSame, Constraint.same_Constraint,
    YASMIJ.scalar_property, YASMIJ.object_property, YASMIJ.string_differs,
    YASMIJ.number_differs, YASMIJ.areObjectsSame, Expression.same_Expression,
    YASMIJ.object_property, YASMIJ.areObjectsSame, YASMIJ.numbers_same.
  destruct (String.eqb _ _); cbn [negb]; [|done].
  destruct (YASMIJ.areObjectsSame_numbers
              (Expression.terms (Constraint.leftSide this)) _) as [[|]|];
    cbn [mbind result_bind negb]; [|done..].
  destruct (YASMIJ.areObjectsSame_numbers
              (Expression.terms (Constraint.rightSide this)) _) as [[|]|];
    cbn [mbind result_bind negb]; [|done..].
  by destruct (Qeq_bool _ _).
Qed.

Ltac stage :=
  split; [try done; intros _; by repeat split
         |intros (? & ? & ? & ? & ?); done].

Lemma equals_true (this obj : Constraint.t) :
  Constraint.equals this obj = Return true <->
  Constraint.comparison this = Constraint.comparison obj
  /\ (Constraint.slackValue this == Constraint.slackValue obj)%Q
  /\ included (Expression.terms (Constraint.leftSide this))
       (Expression.terms (Constraint.leftSide obj))
  /\ included (Expression.terms (Constraint.rightSide this))
       (Expression.terms (Constraint.rightSide obj))
  /\ included (Constraint.terms this) (Constraint.terms obj).
Proof.
  rewrite equals_stages, <- !areObjectsSame_numbers_true, <- Qeq_bool_iff.
  destruct (String.eqb_spec (Constraint.comparison this) (Constraint.comparison obj));
    [|stage].
  destruct (YASMIJ.areObjectsSame_numbers
              (Expression.terms (Constraint.leftSide this)) _) as [[|]|];
    cbn [mbind result_bind negb]; [|stage..].
  destruct (YASMIJ.areObjectsSame_numbers
              (Expression.terms (Constraint.rightSide this)) _) as [[|]|];
    cbn [mbind result_bind negb]; [|stage..].
  destruct (Qeq_bool _ _); [|stage].
  destruct (YASMIJ.areObjectsSame_numbers _ _) as [[|]|];
    cbn [mbind result_bind negb]; stage.
Qed.

(** X3. [equals] answers true exactly when the two constraints have the
    same comparison and [slackValue] and, on each side and in [terms],
    every term of the first one is a term of the second one with the same
    coefficient, the second one has no term named [constructor] and the
    first one none named [hasOwnProperty]: terms that only the second
    constraint has do not count otherwise. *)
Theorem equals_is_inclusion (this obj : Constraint.t) :
  Constraint.equals this obj = Return true <->
  Constraint.comparison this = Constraint.comparison obj
  /\ (Constraint.slackValue this == Constraint.slackValue obj)%Q
  /\ included (Expression.terms (Constraint.leftSide this))
       (Expression.terms (Constraint.leftSide obj))
  /\ included (Expression.terms (Constraint.rightSide this))
       (Expression.terms (Constraint.rightSide obj))
  /\ included (Constraint.terms this) (Constraint.terms obj).
Proof.
  rewrite equals_stages, <- !areObjectsSame_numbers_true, <- Qeq_bool_iff.
  destruct (String.eqb_spec (Constraint.comparison this) (Constraint.comparison obj));
    [|stage].
  destruct (YASMIJ.areObjectsSame_numbers
              (Expression.terms (Constraint.leftSide this)) _) as [[|]|];
    cbn [mbind result_bind negb]; [|stage..].
  destruct (YASMIJ.areObjectsSame_numbers
              (Expression.terms (Constraint.rightSide this)) _) as [[|]|];
    cbn [mbind result_bind negb]; [|stage..].
  destruct (Qeq_bool _ _); [|stage].
  destruct (YASMIJ.areObjectsSame_numbers _ _) as [[|]|];
    cbn [mbind result_bind negb]; stage.
Qed.

(** X4. [equals] is transitive: if it answers true for a first and a second
    constraint and for the second and a third, it answers true for the
    first and the third. *)
Theorem equals_transitive (a b c : Constraint.t) :
  Constraint.equals a b = Return true -> Constraint.equals b c = Return true ->
  Constraint.equals a c = Return true.
Proof.
  rewrite !equals_true.
  intros (Hc1 & Hs1 & Hl1 & Hr1 & Ht1) (Hc2 & Hs2 & Hl2 & Hr2 & Ht2).
  split; [congruence|]. split; [by rewrite Hs1|].
  split; [|split]; by eapply included_trans.
Qed.

(** X4, witness: ["x <= 4"], ["x + y <= 4"] and ["x + y + z <= 4"]. *)
Lemma equals_transitive_witness :
  let c1 := Constraint.mk "<=" (Expression.mk [("x", 1%Q)])
              (Expression.mk [("1", 4%Q)]) 0%Q [] in
  let c2 := Constraint.mk "<=" (Expression.mk [("x", 1%Q); ("y", 1%Q)])
              (Expression.mk [("1", 4%Q)]) 0%Q [] in
  let c3 := Constraint.mk "<=" (Expression.mk [("x", 1%Q); ("y", 1%Q); ("z", 1%Q)])
              (Expression.mk [("1", 4%Q)]) 0%Q [] in
  Constraint.equals c1 c3 = Return true.
Proof.
  intros c1 c2 c3. apply (equals_transitive c1 c2 c3); reflexivity.
Defined.

(** X5. For two constraints whose objects have each name once, [equals]
    answers true in both directions exactly when they have the same
    comparison, the same [slackValue] and, on each side and in [terms],
    the same terms with the same coefficients, in whatever order, none of
    them named [constructor] or [hasOwnProperty]. *)
Theorem equals_both_ways (a b : Constraint.t) :
  NoDup (Expression.terms (Constraint.leftSide a)).*1 ->
  NoDup (Expression.terms (Constraint.rightSide a)).*1 ->
  NoDup (Constraint.terms a).*1 ->
  NoDup (Expression.terms (Constraint.leftSide b)).*1 ->
  NoDup (Expression.terms (Constraint.rightSide b)).*1 ->
  NoDup (Constraint.terms b).*1 ->
  Constraint.equals a b = Return true /\ Constraint.equals b a = Return true <->
  Constraint.comparison a = Constraint.comparison b
  /\ (Constraint.slackValue a == Constraint.slackValue b)%Q
  /\ (same_properties (Expression.terms (Constraint.leftSide a))
        (Expression.terms (Constraint.leftSide b))
      /\ own (Expression.terms (Constraint.leftSide a)) "constructor" = None
      /\ own (Expression.terms (Constraint.leftSide a)) "hasOwnProperty" = None)
  /\ (same_properties (Expression.terms (Constraint.rightSide a))
        (Expression.terms (Constraint.rightSide b))
      /\ own (Expression.terms (Constraint.rightSide a)) "constructor" = None
      /\ own (Expression.terms (Constraint.rightSide a)) "hasOwnProperty" = None)
  /\ (same_properties (Constraint.terms a) (Constraint.terms b)
      /\ own (Constraint.terms a) "constructor" = None
      /\ own (Constraint.terms a) "hasOwnProperty" = None).
Proof.
  intros Hla Hra Hta Hlb Hrb Htb. rewrite !equals_true.
  rewrite <- !included_both by done. split.
  - intros [(? & ? & ? & ? & ?) (? & ? & ? & ? & ?)].
    split; [done|]. split; [done|]. split; [by split|]. split; by split.
  - intros (Hc & Hs & [? ?] & [? ?] & [? ?]).
    split; (split; [done || by symmetry|]); (split; [done || by symmetry|]);
      (split; [done|]); by split.
Qed.

(** X5, witness: ["x + y <= 4"] and ["y + x <= 4"]. *)
Lemma equals_both_ways_witness :
  let a := Constraint.mk "<=" (Expression.mk [("x", 1%Q); ("y", 1%Q)])
             (Expression.mk [("1", 4%Q)]) 0%Q [] in
  let b := Constraint.mk "<=" (Expression.mk [("y", 1%Q); ("x", 1%Q)])
             (Expression.mk [("1", 4%Q)]) 0%Q [] in
  same_properties (Expression.terms (Constraint.leftSide a))
    (Expression.terms (Constraint.leftSide b)).
Proof.
  intros a b.
  assert (Constraint.equals a b = Return true /\ Constraint.equals b a = Return true)
    as H by (split; reflexivity).
  apply (equals_both_ways a b) in H; try by apply (bool_decide_unpack _).
  exact (proj1 (proj1 (proj2 (proj2 H)))).
Defined.

(** X6. [equals] throws only when, on one side or in [terms], the second
    constraint has a term named [constructor], or the first one has a
    term named [hasOwnProperty], or a term name of the first one is
    missing in the second one and is no name of [Object.prototype]. *)
Theorem equals_throws_only_on_broken_walk (this obj : Constraint.t) :
  throws (Constraint.equals this obj) ->
  walk_breaks (Expression.terms (Constraint.leftSide this))
    (Expression.terms (Constraint.leftSide obj))
  \/ walk_breaks (Expression.terms (Constraint.rightSide this))
       (Expression.terms (Constraint.rightSide obj))
  \/ walk_breaks (Constraint.terms this) (Constraint.terms obj).
Proof.
  intros [msg Hthrow]. rewrite equals_stages in Hthrow.
  destruct (String.eqb _ _); [|done].
  destruct (YASMIJ.areObjectsSame_numbers
              (Expression.terms (Constraint.leftSide this)) _) as [[|]|] eqn:Hl;
    cbn [mbind result_bind negb] in Hthrow; [|done|].
  2:{ left. by apply areObjectsSame_numbers_Throw in Hl. }
  destruct (YASMIJ.areObjectsSame_numbers
              (Expression.terms (Constraint.rightSide this)) _) as [[|]|] eqn:Hr;
    cbn [mbind result_bind negb] in Hthrow; [|done|].
  2:{ right. left. by apply areObjectsSame_numbers_Throw in Hr. }
  destruct (Qeq_bool _ _); [|done].
  destruct (YASMIJ.areObjectsSame_numbers (Constraint.terms this) _)
    as [[|]|] eqn:Ht; cbn [mbind result_bind negb] in Hthrow; [done..|].
  right. right. by apply areObjectsSame_numbers_Throw in Ht.
Qed.

(** X6, witness: ["x + y <= 4"] compared with ["x <= 4"], where [y] is
    missing, and ["x <= 4"] compared with ["constructor <= 4"]. *)
Lemma equals_throws_only_on_broken_walk_witness :
  let b := Constraint.mk "<=" (Expression.mk [("x", 1%Q); ("y", 1%Q)])
             (Expression.mk [("1", 4%Q)]) 0%Q [] in
  let a := Constraint.mk "<=" (Expression.mk [("x", 1%Q)])
             (Expression.mk [("1", 4%Q)]) 0%Q [] in
  let c := Constraint.mk "<=" (Expression.mk [("constructor", 1%Q)])
             (Expression.mk [("1", 4%Q)]) 0%Q [] in
  walk_breaks [("x", 1%Q); ("y", 1%Q)] [("x", 1%Q)]
  /\ throws (Constraint.equals a c)
  /\ throws (Constraint.equals c c).
Proof.
  intros b a c.
  destruct (equals_throws_only_on_broken_walk b a) as [Hleft|[Hright|Hterms]].
  - by eexists.
  - split; [exact Hleft|]. split; by eexists.
  - exfalso. destruct Hright as [[? [=]]|[[? [=]]|(name & Hin & Hnone & _)]].
    cbn in Hin. rewrite elem_of_cons, elem_of_nil in Hin.
    destruct Hin as [->|[]]. discriminate Hnone.
  - exfalso. destruct Hterms as [[? [=]]|[[? [=]]|(name & Hin & _)]].
    cbn in Hin. by apply elem_of_nil in Hin.
Defined.

(** X7. Two constraints of the same content, whose objects have each name
    once and no term named [constructor] or [hasOwnProperty], are equal
    for [equals]: the walk of [areObjectsSame] answers true on them, as
    the shortcut of line 47 does on one object compared with itself. *)
Theorem equals_same_object (this : Constraint.t) :
  NoDup (Expression.terms (Constraint.leftSide this)).*1 ->
  NoDup (Expression.terms (Constraint.rightSide this)).*1 ->
  NoDup (Constraint.terms this).*1 ->
  own (Expression.terms (Constraint.leftSide this)) "constructor" = None ->
  own (Expression.terms (Constraint.leftSide this)) "hasOwnProperty" = None ->
  own (Expression.terms (Constraint.rightSide this)) "constructor" = None ->
  own (Expression.terms (Constraint.rightSide this)) "hasOwnProperty" = None ->
  own (Constraint.terms this) "constructor" = None ->
  own (Constraint.terms this) "hasOwnProperty" = None ->
  Constraint.equals this this = Return true.
Proof.
  intros. apply equals_true.
  split; [done|]. split; [reflexivity|].
  split; [|split]; by apply included_same.
Qed.

(** X7, witness: ["x + y <= 4"]. *)
Lemma equals_same_object_witness :
  Constraint.equals
    (Constraint.mk "<=" (Expression.mk [("x", 1%Q); ("y", 1%Q)])
       (Expression.mk [("1", 4%Q)]) 0%Q [])
    (Constraint.mk "<=" (Expression.mk [("x", 1%Q); ("y", 1%Q)])
       (Expression.mk [("1", 4%Q)]) 0%Q []) = Return true.
Proof.
  apply equals_same_object; first [by apply (bool_decide_unpack _)|reflexivity].
Defined.

(** ** The checks, read both ways *)

Lemma append_assoc (s t u : string) : (s +:+ t) +:+ u = s +:+ t +:+ u.
Proof.
  induction s as [|c s IH]; [done|]. by rewrite !append_cons, IH.
Qed.

Lemma RE_compares_first (text : string) :
  Constraint.RE_compares text = []
  \/ exists before op after,
       text = before +:+ op +:+ after
       /\ op ∈ comparison_operators
       /\ Constraint.RE_compares text = op :: Constraint.RE_compares after
       /\ (op = "<" \/ op = ">" -> forall rest, after <> String "=" rest).
Proof.
  unfold comparison_operators.
  induction text as [|c text IH]; [by left|].
  rewrite RE_compares_cons.
  destruct (Constraint.is_lt_gt c) eqn:Hc.
  - right. apply is_lt_gt_true in Hc.
    destruct text as [|d text].
    + exists "", (String c ""), "". repeat split; [|done].
      destruct Hc as [-> | ->]; repeat constructor.
    + destruct (Ascii.eqb_spec d "=") as [->|Hd].
      * exists "", (String c "="), text. split; [done|].
        split; [destruct Hc as [-> | ->]; repeat constructor|].
        split; [done|]. by destruct Hc as [-> | ->]; intros [[=]|[=]].
      * exists "", (String c ""), (String d text). split; [done|].
        split; [destruct Hc as [-> | ->]; repeat constructor|].
        split; [done|]. intros _ rest [=]. done.
  - destruct (Ascii.eqb_spec c "=") as [->|Hne].
    + right. exists "", "=", text. split; [done|].
      split; [repeat constructor|]. split; [done|]. by intros [[=]|[=]].
    + destruct IH as [IH|(before & op & after & -> & Hop & Hre & Hafter)];
        [by left|right].
      exists (String c before), op, after. by rewrite append_cons.
Qed.

Lemma count_compares_two (text : string) :
  (2 <= count_compares false text)%nat -> two_comparisons text.
Proof.
  rewrite <- RE_compares_length.
  destruct (RE_compares_first text)
    as [->|(before & op1 & after & -> & Hop1 & -> & Hafter)]; [cbn; lia|].
  destruct (RE_compares_first after)
    as [->|(between & op2 & after' & -> & Hop2 & _ & _)]; [cbn; lia|].
  intros _. exists before, op1, between, op2, after'.
  split; [done|]. split; [done|]. split; [done|].
  intros (Hop & -> & ->). by apply (Hafter Hop after').
Qed.

(** X8. [hasManyCompares] answers true exactly on the texts that, white
    space left out, hold two comparison operators which are not the two
    characters of one ["<="] or [">="]: a text with a single operator is
    never reported. *)
Theorem hasManyCompares_iff (str : string) :
  Constraint.hasManyCompares str = true <-> two_comparisons (remove_spaces str).
Proof.
  unfold Constraint.hasManyCompares. rewrite RE_compares_length, Nat.ltb_lt.
  split; [apply count_compares_two|apply two_comparisons_counted].
Qed.

Lemma space_is_no_operator (c : ascii) :
  is_space c = true -> Constraint.is_operator c = false.
Proof.
  destruct (Constraint.is_operator c) eqn:Hop; [|done].
  unfold Constraint.is_operator, Constraint.is_lt_gt, Constraint.is_plus_minus in Hop.
  repeat (apply orb_true_iff in Hop as [Hop|Hop]);
    apply Ascii.eqb_eq in Hop; by subst c.
Qed.

Lemma spaces_then_value_head (str : string) :
  Constraint.spaces_then_value str = true ->
  exists s y after,
    str = String s (String y after)
    /\ is_space s = true /\ Constraint.is_operator y = false.
Proof.
  destruct str as [|s [|y after]]; cbn [Constraint.spaces_then_value]; [done|..].
  - by rewrite andb_false_r.
  - intros [Hs [Hy|Hrest]%orb_true_iff]%andb_true_iff;
      exists s, y, after; split; [done| |done|]; split; [done| |done|].
    + by apply negb_true_iff.
    + cbn [Constraint.spaces_then_value] in Hrest.
      apply andb_true_iff in Hrest as [Hy _]. by apply space_is_no_operator.
Qed.

(** X9. The test for two values with no operator between them answers true
    exactly when some white-space character stands between two characters
    that are no operators.  White space is itself no operator, so two
    white-space characters before a value are reported as well.  Such a
    text makes [Constraint.parse] throw, whatever [Expression.parse] is. *)
Theorem hasNoOperatorBetweenValues_iff
    (Expression_parse : string -> result Expression.t) (str : string) :
  (Constraint.hasNoOperatorBetweenValues str = true <-> value_space_value str)
  /\ (value_space_value str -> throws (Constraint.parse Expression_parse str)).
Proof.
  assert (Constraint.hasNoOperatorBetweenValues str = true <-> value_space_value str)
    as Hiff.
  { unfold value_space_value. split.
    - induction str as [|c str IH]; [done|].
      cbn [Constraint.hasNoOperatorBetweenValues].
      intros [[Hc Hrest]%andb_true_iff|Hrest]%orb_true_iff.
      + apply spaces_then_value_head in Hrest as (s & y & after & -> & Hs & Hy).
        exists "", c, s, y, after. split; [done|]. split; [|done].
        by apply negb_true_iff.
      + destruct (IH Hrest) as (before & x & s & y & after & -> & H).
        by exists (String c before), x, s, y, after.
    - intros (before & x & s & y & after & -> & Hx & Hs & Hy).
      induction before as [|b before IH].
      + rewrite append_nil_l.
        cbn [Constraint.hasNoOperatorBetweenValues Constraint.spaces_then_value].
        by rewrite Hx, Hs, Hy.
      + rewrite append_cons. cbn [Constraint.hasNoOperatorBetweenValues].
        rewrite IH. apply orb_true_r. }
  split; [exact Hiff|]. intros H%Hiff.
  unfold Constraint.parse, Constraint.parseToObject, Constraint.checkInput,
    Constraint.getErrorMessage, Constraint.hasIncompleteBinaryOperator.
  rewrite H, orb_true_r.
  destruct (Constraint.hasManyCompares str); by eexists.
Qed.

(** X9, witness: ["a b = 3"], and ["a +  b = 3"] with its two spaces. *)
Lemma hasNoOperatorBetweenValues_iff_witness :
  throws (Constraint.parse Expression.parse "a b = 3")
  /\ throws (Constraint.parse Expression.parse "a +  b = 3").
Proof.
  split.
  - apply (hasNoOperatorBetweenValues_iff Expression.parse "a b = 3").
    by exists "", "a"%char, " "%char, "b"%char, " = 3".
  - apply (hasNoOperatorBetweenValues_iff Expression.parse "a +  b = 3").
    by exists "a +", " "%char, " "%char, "b"%char, " = 3".
Defined.

(** X10. The test for an operator without its operand answers true exactly
    when a [+] or a [-] is followed by an operator character or when the
    last character is an operator.  So an input that ends, white space
    left out, with [<], [>], [=], [+] or [-] makes [Constraint.parse]
    throw, whatever [Expression.parse] is. *)
Theorem RE_noLeftAndRightTerms_iff
    (Expression_parse : string -> result Expression.t) (str : string) :
  (Constraint.RE_noLeftAndRightTerms str = true <->
   plus_minus_without_right_operand str \/ ends_with_operator str)
  /\ (ends_with_operator (remove_spaces str) ->
      throws (Constraint.parse Expression_parse str)).
Proof.
  assert (forall text, ends_with_operator text ->
            Constraint.RE_noLeftAndRightTerms text = true) as Hends.
  { intros text (before & c & -> & Hc).
    induction before as [|b before IH]; [done|].
    rewrite append_cons. cbn [Constraint.RE_noLeftAndRightTerms].
    destruct (before +:+ String c "") eqn:Hrest; [by destruct before|].
    rewrite IH. apply orb_true_r. }
  split.
  - split.
    + unfold plus_minus_without_right_operand, ends_with_operator.
      induction str as [|c str IH]; [done|].
      cbn [Constraint.RE_noLeftAndRightTerms].
      destruct str as [|d str].
      * intros Hc. right. by exists "", c.
      * intros [[Hc Hd]%andb_true_iff|Hrest]%orb_true_iff.
        -- left. exists "", c, (String d str). split; [done|]. split; [|done].
           unfold Constraint.is_plus_minus in Hc.
           apply orb_true_iff in Hc as [Hc|Hc]; apply Ascii.eqb_eq in Hc; auto.
        -- destruct (IH Hrest) as [(before & x & after & -> & H)|(before & x & -> & H)].
           ++ left. by exists (String c before), x, after.
           ++ right. by exists (String c before), x.
    + intros [H|H]; [by apply RE_noLeftAndRightTerms_found|by apply Hends].
  - intros H%Hends.
    unfold Constraint.parse, Constraint.parseToObject, Constraint.checkInput,
      Constraint.getErrorMessage, Constraint.hasIncompleteBinaryOperator.
    rewrite H. cbn [orb].
    destruct (Constraint.hasManyCompares str); by eexists.
Qed.

(** X10, witness: ["x <= "]. *)
Lemma RE_noLeftAndRightTerms_iff_witness :
  throws (Constraint.parse Expression.parse "x <= ").
Proof.
  apply (RE_noLeftAndRightTerms_iff Expression.parse "x <= ").
  by exists "x<", "="%char.
Defined.

(** ** What [parse] makes of a text *)

Lemma no_comparison_cons (c : ascii) (text : string) :
  no_comparison (String c text) <->
  Constraint.is_lt_gt c = false /\ Ascii.eqb c "=" = false /\ no_comparison text.
Proof.
  unfold no_comparison. cbn [all_chars].
  rewrite andb_true_iff, negb_true_iff, orb_false_iff. tauto.
Qed.

Lemma RE_comparison_split_one (text : string) :
  no_comparison text -> Constraint.RE_comparison_split text = [text].
Proof.
  induction text as [|d text IH]; [done|].
  intros (Hd & Hd' & Htext)%no_comparison_cons.
  by rewrite RE_comparison_split_cons_eq, Hd, Hd', IH.
Qed.

Lemma RE_comparison_at_operator (op rest : string) :
  op ∈ comparison_operators -> no_comparison rest ->
  Constraint.RE_comparison_split (op +:+ rest) = [""; rest]
  /\ Constraint.RE_comparison_exec (op +:+ rest) = op.
Proof.
  intros Hop Hrest. pose proof (RE_comparison_split_one rest Hrest) as Hsplit.
  assert (match rest with
          | String d _ => Ascii.eqb d "=" = false
          | "" => True
          end) as Hd.
  { destruct rest as [|d rest']; [done|].
    by apply no_comparison_cons in Hrest as (_ & ? & _). }
  unfold comparison_operators in Hop.
  rewrite !elem_of_cons, elem_of_nil in Hop.
  destruct Hop as [->|[->|[->|[->|[->|[]]]]]].
  - change ("<" +:+ rest) with (String "<" rest).
    rewrite RE_comparison_split_cons_eq. cbn [Constraint.RE_comparison_exec].
    change (Constraint.is_lt_gt "<") with true. cbv iota.
    destruct rest as [|d rest']; [done|]. by rewrite Hd, Hsplit.
  - change (">" +:+ rest) with (String ">" rest).
    rewrite RE_comparison_split_cons_eq. cbn [Constraint.RE_comparison_exec].
    change (Constraint.is_lt_gt ">") with true. cbv iota.
    destruct rest as [|d rest']; [done|]. by rewrite Hd, Hsplit.
  - change ("<=" +:+ rest) with (String "<" (String "=" rest)).
    rewrite RE_comparison_split_cons_eq. cbn [Constraint.RE_comparison_exec].
    change (Constraint.is_lt_gt "<") with true.
    change (Ascii.eqb "=" "=") with true. cbv iota. by rewrite Hsplit.
  - change (">=" +:+ rest) with (String ">" (String "=" rest)).
    rewrite RE_comparison_split_cons_eq. cbn [Constraint.RE_comparison_exec].
    change (Constraint.is_lt_gt ">") with true.
    change (Ascii.eqb "=" "=") with true. cbv iota. by rewrite Hsplit.
  - change ("=" +:+ rest) with (String "=" rest).
    rewrite RE_comparison_split_cons_eq. cbn [Constraint.RE_comparison_exec].
    change (Constraint.is_lt_gt "=") with false.
    change (Ascii.eqb "=" "=") with true. cbv iota. by rewrite Hsplit.
Qed.

Lemma RE_comparison_no_comparison (text : string) :
  no_comparison text ->
  Constraint.RE_comparison_split text = [text]
  /\ forall op rest,
       op ∈ comparison_operators -> no_comparison rest ->
       Constraint.RE_comparison_split (text +:+ op +:+ rest) = [text; rest]
       /\ Constraint.RE_comparison_exec (text +:+ op +:+ rest) = op.
Proof.
  intros Htext. split; [by apply RE_comparison_split_one|].
  intros op rest Hop Hrest.
  destruct (RE_comparison_at_operator op rest Hop Hrest) as [Hs He].
  induction text as [|c text IH]; [by rewrite append_nil_l|].
  apply no_comparison_cons in Htext as (Hc & Hc' & Htext).
  destruct (IH Htext) as [Hs' He'].
  rewrite append_cons, RE_comparison_split_cons_eq, Hc, Hc', Hs'.
  split; [done|]. cbn [Constraint.RE_comparison_exec]. by rewrite Hc, Hc'.
Qed.

(** X11. A text that holds no comparison operator is read as an equation
    with zero: once [checkInput] has passed, [parse] reads ["0"], then the
    whole text as the left side, and returns the constraint [text = 0]
    with [slackValue] 0; an exception of [Expression.parse] on ["0"] comes
    first. *)
Theorem parse_reads_one_side
    (Expression_parse : string -> result Expression.t) (str : string) :
  no_comparison str ->
  Constraint.parse Expression_parse str =
  (Constraint.checkInput str;;
   rhs ← Expression_parse "0";
   lhs ← Expression_parse str;
   Return (Constraint.mk "=" lhs rhs 0%Q [])).
Proof.
  intros [Hsplit _]%RE_comparison_no_comparison.
  unfold Constraint.parse, Constraint.parseToObject. rewrite Hsplit.
  destruct (Constraint.checkInput str); [|done]. cbn [mbind result_bind].
  destruct (Expression_parse "0"); [|done]. cbn [mbind result_bind].
  cbn [lookup list_lookup default from_option id length Nat.ltb Nat.leb].
  by destruct (Expression_parse str).
Qed.

(** X11, witness: ["x - 2y"]. *)
Lemma parse_reads_one_side_witness :
  Constraint.parse Expression.parse "x - 2y" =
  Return (Constraint.mk "=" (Expression.mk [("x", 1%Q); ("y", (-2)%Q)])
            (Expression.mk [("1", 0%Q)]) 0%Q []).
Proof.
  rewrite (parse_reads_one_side Expression.parse "x - 2y"); reflexivity.
Defined.

(** X12. A text made of a left part, one comparison operator and a right
    part, the two parts holding no comparison operator, is read as that:
    once [checkInput] has passed, [parse] reads ["0"], the left part and
    the right part with [Expression.parse], in this order, and returns
    the constraint of the two sides with that operator and [slackValue] 0;
    nothing of the text is lost. *)
Theorem parse_reads_two_sides
    (Expression_parse : string -> result Expression.t) (left op right : string) :
  no_comparison left -> op ∈ comparison_operators -> no_comparison right ->
  Constraint.parse Expression_parse (left +:+ op +:+ right) =
  (Constraint.checkInput (left +:+ op +:+ right);;
   Expression_parse "0";;
   lhs ← Expression_parse left;
   rhs ← Expression_parse right;
   Return (Constraint.mk op lhs rhs 0%Q [])).
Proof.
  intros [_ Htwo]%RE_comparison_no_comparison Hop Hright.
  destruct (Htwo op right Hop Hright) as [Hsplit Hexec].
  unfold Constraint.parse, Constraint.parseToObject. rewrite Hsplit, Hexec.
  destruct (Constraint.checkInput _); [|done]. cbn [mbind result_bind].
  destruct (Expression_parse "0"); [|done]. cbn [mbind result_bind].
  cbn [lookup list_lookup default from_option id length Nat.ltb Nat.leb].
  destruct (Expression_parse left); [|done]. cbn [mbind result_bind].
  by destruct (Expression_parse right).
Qed.

(** X12, witness: ["2x + y"], [">="], ["3"]. *)
Lemma parse_reads_two_sides_witness :
  Constraint.parse Expression.parse "2x + y >= 3" =
  Return (Constraint.mk ">=" (Expression.mk [("x", 2%Q); ("y", 1%Q)])
            (Expression.mk [("1", 3%Q)]) 0%Q []).
Proof.
  change "2x + y >= 3" with ("2x + y " +:+ ">=" +:+ " 3").
  rewrite (parse_reads_two_sides Expression.parse "2x + y " ">=" " 3");
    [reflexivity|reflexivity|repeat constructor|reflexivity].
Defined.

(** X13. A constraint that [parse] returns has one of the five comparison
    operators, [slackValue] 0 and no [terms] of its own, and each of its
    sides is a value that [Expression.parse] returned. *)
Theorem parse_returns
    (Expression_parse : string -> result Expression.t)
    (str : string) (this : Constraint.t) :
  Constraint.parse Expression_parse str = Return this ->
  Constraint.comparison this ∈ comparison_operators
  /\ Constraint.slackValue this = 0%Q
  /\ Constraint.terms this = []
  /\ (exists text, Expression_parse text = Return (Constraint.leftSide this))
  /\ (exists text, Expression_parse text = Return (Constraint.rightSide this)).
Proof.
  intros Hparse. destruct (parse_shape _ _ _ Hparse) as (Hc & Hs & Ht).
  split; [done|]. split; [done|]. split; [done|].
  revert Hparse. unfold Constraint.parse, Constraint.parseToObject.
  destruct (Constraint.checkInput str); [|done]. cbn [mbind result_bind].
  destruct (Expression_parse "0") as [rhs0|] eqn:H0; [|done].
  cbn [mbind result_bind].
  destruct (Expression_parse (default "" (_ !! 0%nat))) as [lhs|] eqn:Hl; [|done].
  cbn [mbind result_bind].
  destruct (1 <? length _)%nat.
  - destruct (Expression_parse (default "" (_ !! 1%nat))) as [rhs|] eqn:Hr; [|done].
    cbn [mbind result_bind]. intros [= <-]. cbn. by eauto.
  - cbn [mbind result_bind]. intros [= <-]. cbn. by eauto.
Qed.

(** X13, witness: ["x + y <= 4"]. *)
Lemma parse_returns_witness :
  exists this,
    Constraint.parse Expression.parse "x + y <= 4" = Return this
    /\ Constraint.comparison this ∈ comparison_operators
    /\ Constraint.slackValue this = 0%Q.
Proof.
  eexists. split; [vm_compute; reflexivity|].
  match goal with
  | |- ?c ∈ _ /\ _ =>
      match c with
      | Constraint.comparison ?this =>
          destruct (parse_returns Expression.parse "x + y <= 4" this eq_refl)
            as (H1 & H2 & _)
      end
  end.
  by split.
Defined.

(** ** What a constraint says about numbers *)

Section value_facts.

Variable rho : string -> Q.

Implicit Types (o L : object Q) (e a b : Expression.t).

Lemma filter_agree {A : Type} (P1 P2 : A -> Prop)
    `{forall x, Decision (P1 x)} `{forall x, Decision (P2 x)} (l : list A) :
  Forall (fun x => P1 x <-> P2 x) l -> filter P1 l = filter P2 l.
Proof.
  induction 1 as [|x l Hx _ IH]; [done|].
  rewrite !filter_cons, IH.
  destruct (decide (P1 x)), (decide (P2 x)); tauto.
Qed.

(** The terms that stay on a side are those that are not picked, when
    terms are picked by their name. *)
Lemma moved_filter (P : string * Q -> Prop) `{forall kv, Decision (P kv)} o :
  (forall k v v', P (k, v) -> P (k, v')) ->
  filter (fun kv => kv.1 ∉ (filter P o).*1) o = filter (fun kv => ~ P kv) o.
Proof.
  intros Hkey. apply filter_agree.
  apply Forall_forall. intros [k v] Hin. split.
  - intros Hout HP. apply Hout.
    apply (list_elem_of_fmap_2 fst _ (k, v)). by apply list_elem_of_filter.
  - intros HP [[k' v'] [Hk [HP' _]%list_elem_of_filter]]%list_elem_of_fmap.
    simpl in Hk. subst k'. apply HP. by apply (Hkey k v' v).
Qed.

Lemma value_of_filter_split (P : string * Q -> Prop)
    `{forall kv, Decision (P kv)} o :
  (value_of rho o ==
   value_of rho (filter P o) + value_of rho (filter (fun kv => ~ P kv) o))%Q.
Proof.
  induction o as [|[k v] o IH]; [reflexivity|].
  rewrite !filter_cons.
  destruct (decide (P (k, v))), (decide (~ P (k, v))); try tauto;
    simpl; lra.
Qed.

Lemma value_of_app o1 o2 :
  (value_of rho (o1 ++ o2) == value_of rho o1 + value_of rho o2)%Q.
Proof.
  induction o1 as [|[k v] o1 IH]; simpl; [lra|]. rewrite IH. lra.
Qed.

Lemma value_of_negated L :
  (value_of rho (map (fun kv => (kv.1, (- kv.2)%Q)) L) == - value_of rho L)%Q.
Proof.
  induction L as [|[k v] L IH]; simpl; [lra|]. rewrite IH. ring.
Qed.

(** A term moved to a side that has no term of its name is created there
    with its coefficient negated: no sum is taken. *)
Lemma foldl_addTerm_fresh L b :
  NoDup ((Expression.terms b).*1 ++ L.*1) ->
  Expression.terms
    (foldl (fun b kv => Expression.addTerm kv.1 (- kv.2)%Q b) b L) =
  Expression.terms b ++ map (fun kv => (kv.1, (- kv.2)%Q)) L.
Proof.
  revert b. induction L as [|[k v] L IH]; intros b Hnodup; simpl.
  - by rewrite app_nil_r.
  - assert (Expression.add_to k (- v) (Expression.terms b) =
            Expression.terms b ++ [(k, (- v)%Q)]) as Hadd.
    { apply add_to_absent. apply own_None, Forall_forall.
      intros [k' v'] Hin Heq. simpl in Heq. subst k'.
      apply NoDup_app in Hnodup as (_ & Hapart & _).
      apply (Hapart k); [|left].
      by apply (list_elem_of_fmap_2 fst _ (k, v')). }
    rewrite IH; cbn [Expression.addTerm Expression.terms]; rewrite Hadd.
    + by rewrite <- app_assoc.
    + rewrite fmap_app, <- app_assoc. exact Hnodup.
Qed.

(** Moving terms from one side to the other, in a constraint whose names
    are apart, keeps the difference of the two sides and the names
    apart. *)
Lemma switched_apart (P : string * Q -> Prop) `{forall kv, Decision (P kv)} a b :
  (forall k v v', P (k, v) -> P (k, v')) ->
  NoDup ((Expression.terms a).*1 ++ (Expression.terms b).*1) ->
  let sides :=
    foldl (fun sides kv =>
             (Expression.removeTerm kv.1 sides.1,
              Expression.addTerm kv.1 (- kv.2)%Q sides.2)) (a, b)
      (filter P (Expression.terms a)) in
  (value_of rho (Expression.terms sides.1) - value_of rho (Expression.terms sides.2) ==
   value_of rho (Expression.terms a) - value_of rho (Expression.terms b))%Q
  /\ NoDup ((Expression.terms sides.1).*1 ++ (Expression.terms sides.2).*1).
Proof.
  intros Hkey Hnodup sides. unfold sides. rewrite foldl_switch.
  cbn [fst snd Expression.terms]. rewrite (moved_filter P) by done.
  set (moved := filter P (Expression.terms a)).
  set (kept := filter (fun kv => ~ P kv) (Expression.terms a)).
  assert (moved.*1 ++ kept.*1 ≡ₚ (Expression.terms a).*1) as Hsplit.
  { rewrite <- fmap_app. apply fmap_Permutation, filter_app_complement. }
  assert (NoDup (kept.*1 ++ (Expression.terms b).*1 ++ moved.*1)) as Hall.
  { rewrite <- Hsplit in Hnodup.
    assert (kept.*1 ++ (Expression.terms b).*1 ++ moved.*1
            ≡ₚ (moved.*1 ++ kept.*1) ++ (Expression.terms b).*1) as Hsame.
    { rewrite (comm (++) moved.*1 kept.*1), <- app_assoc.
      f_equiv. apply (comm (++)). }
    by rewrite Hsame. }
  assert (NoDup ((Expression.terms b).*1 ++ moved.*1)) as Hfresh.
  { by apply NoDup_app in Hall as (_ & _ & ?). }
  rewrite (foldl_addTerm_fresh _ _ Hfresh). split.
  - rewrite value_of_app, value_of_negated.
    pose proof (value_of_filter_split P (Expression.terms a)) as Hvalue.
    fold moved kept in Hvalue. lra.
  - rewrite fmap_app.
    assert ((map (fun kv => (kv.1, (- kv.2)%Q)) moved).*1 = moved.*1) as ->; [|done].
    generalize moved. intros L.
    induction L as [|[k v] L IH]; [done|].
    cbn [map]. rewrite !fmap_cons. cbn [fst]. by f_equal.
Qed.

Lemma value_of_scale (factor : Q) o :
  (value_of rho (map (fun kv => (kv.1, (kv.2 * factor)%Q)) o) ==
   value_of rho o * factor)%Q.
Proof.
  induction o as [|[k v] o IH]; simpl.
  - lra.
  - rewrite IH. ring.
Qed.

Lemma value_of_removed (name : string) o :
  NoDup o.*1 ->
  (value_of rho (filter (fun kv => kv.1 <> name) o) ==
   value_of rho o - default 0 (own o name) * rho name)%Q.
Proof.
  induction o as [|[k v] o IH]; intros Hnodup; simpl.
  - lra.
  - apply NoDup_cons in Hnodup as [Hk Hnodup].
    rewrite filter_cons. simpl.
    destruct (String.eqb_spec k name) as [->|Hne].
    + rewrite decide_False by (intros Hne; by apply Hne).
      rewrite filter_all; [simpl; lra|].
      apply Forall_forall. intros [k' v'] Hin Heq. simpl in Heq. subst k'.
      apply Hk. by apply (list_elem_of_fmap_2 fst _ (name, v')).
    + rewrite decide_True by done. simpl. rewrite (IH Hnodup). lra.
Qed.

End value_facts.

(** A constraint of the same comparison and the same difference of its
    sides says the same. *)
Lemma holds_difference (rho : string -> Q) (this that : Constraint.t) :
  Constraint.comparison that = Constraint.comparison this ->
  (value_of rho (Expression.terms (Constraint.leftSide that))
   - value_of rho (Expression.terms (Constraint.rightSide that)) ==
   value_of rho (Expression.terms (Constraint.leftSide this))
   - value_of rho (Expression.terms (Constraint.rightSide this)))%Q ->
  holds rho that <-> holds rho this.
Proof.
  intros Hc Hd. unfold holds. rewrite Hc.
  repeat (destruct (String.eqb _ _); [split; intros; lra|]). done.
Qed.

Lemma not_name_key (k : string) (v v' : Q) :
  (k, v).1 <> "1" -> (k, v').1 <> "1".
Proof. done. Qed.

Lemma name_key (k : string) (v v' : Q) :
  (k, v).1 = "1" -> (k, v').1 = "1".
Proof. done. Qed.

Lemma names_apart_swap (this : Constraint.t) :
  names_apart this <->
  NoDup ((Expression.terms (Constraint.rightSide this)).*1
         ++ (Expression.terms (Constraint.leftSide this)).*1).
Proof. unfold names_apart. by rewrite (comm (++)). Qed.

(** One half of [moveTypeToOneSide], on a constraint whose names are
    apart: the names stay apart, and the difference of the sides stays. *)
Lemma moved_apart (rho : string -> Q) (P : string * Q -> Prop)
    `{forall kv, Decision (P kv)} (doSwap : bool) (this : Constraint.t) :
  (forall k v v', P (k, v) -> P (k, v')) ->
  names_apart this ->
  let sides := Constraint.getSwappedSides doSwap this in
  let that :=
    Constraint.putSwappedSides doSwap
      (foldl (fun sides kv =>
                (Expression.removeTerm kv.1 sides.1,
                 Expression.addTerm kv.1 (- kv.2)%Q sides.2)) (sides.1, sides.2)
         (filter P (Expression.terms sides.1))) this in
  names_apart that
  /\ (value_of rho (Expression.terms (Constraint.leftSide that))
      - value_of rho (Expression.terms (Constraint.rightSide that)) ==
      value_of rho (Expression.terms (Constraint.leftSide this))
      - value_of rho (Expression.terms (Constraint.rightSide this)))%Q.
Proof.
  intros Hkey Hapart sides that. subst sides that.
  unfold Constraint.getSwappedSides, Constraint.putSwappedSides.
  destruct doSwap; cbn [negb fst snd].
  - apply names_apart_swap in Hapart.
    destruct (switched_apart rho P (Constraint.rightSide this)
                (Constraint.leftSide this) Hkey Hapart) as [Hd Hn].
    cbn zeta in Hd, Hn. split.
    + apply names_apart_swap. by fields.
    + fields. lra.
  - destruct (switched_apart rho P (Constraint.leftSide this)
                (Constraint.rightSide this) Hkey Hapart) as [Hd Hn].
    cbn zeta in Hd, Hn. split; [by unfold names_apart; fields|by fields].
Qed.

Lemma moveTypeToOneSide_fields (varSide numSide : string) (this : Constraint.t) :
  let that := Constraint.moveTypeToOneSide varSide numSide this in
  Constraint.comparison that = Constraint.comparison this
  /\ Constraint.slackValue that = Constraint.slackValue this
  /\ Constraint.terms that = Constraint.terms this.
Proof.
  unfold Constraint.moveTypeToOneSide, Constraint.putSwappedSides.
  by destruct (Constraint.left_or_right varSide),
    (Constraint.left_or_right numSide),
    (includes "left" varSide), (includes "left" numSide).
Qed.

Lemma moveTypeToOneSide_apart (rho : string -> Q) (varSide numSide : string)
    (this : Constraint.t) :
  names_apart this ->
  let that := Constraint.moveTypeToOneSide varSide numSide this in
  names_apart that
  /\ (value_of rho (Expression.terms (Constraint.leftSide that))
      - value_of rho (Expression.terms (Constraint.rightSide that)) ==
      value_of rho (Expression.terms (Constraint.leftSide this))
      - value_of rho (Expression.terms (Constraint.rightSide this)))%Q.
Proof.
  intros Hapart that. subst that.
  unfold Constraint.moveTypeToOneSide, Constraint.switchSides,
    Expression.forEachVariable, Expression.forEachConstant.
  destruct (Constraint.left_or_right varSide).
  - destruct (moved_apart rho (fun kv => kv.1 <> "1") (includes "left" varSide)
                this not_name_key Hapart) as [Hn Hd].
    cbn zeta in Hn, Hd.
    destruct (Constraint.left_or_right numSide); [|done].
    destruct (moved_apart rho (fun kv => kv.1 = "1") (includes "left" numSide)
                _ name_key Hn) as [Hn' Hd'].
    cbn zeta in Hn', Hd'. split; [exact Hn'|]. by rewrite Hd'.
  - destruct (Constraint.left_or_right numSide); [|done].
    apply (moved_apart rho (fun kv => kv.1 = "1") (includes "left" numSide)
             this name_key Hapart).
Qed.

(** X14. [moveTypeToOneSide(varSide, numSide)] leaves the comparison,
    [slackValue] and [terms] as they are, whatever the two arguments.  On
    a constraint in which no term name occurs twice, on one side or on
    both, no sum of coefficients is taken: every term moved is created
    on the other side with its coefficient negated, no name occurs twice
    afterwards either, and whatever numbers the names stand for, the
    constraint returned holds exactly when the constraint given does. *)
Theorem moveTypeToOneSide_same_meaning (varSide numSide : string)
    (this : Constraint.t) :
  let that := Constraint.moveTypeToOneSide varSide numSide this in
  Constraint.comparison that = Constraint.comparison this
  /\ Constraint.slackValue that = Constraint.slackValue this
  /\ Constraint.terms that = Constraint.terms this
  /\ (names_apart this ->
      names_apart that /\ forall rho, holds rho that <-> holds rho this).
Proof.
  intros that. unfold that.
  destruct (moveTypeToOneSide_fields varSide numSide this) as (Hc & Hs & Ht).
  cbn zeta in Hc, Hs, Ht.
  repeat (split; [done|]). intros Hapart. split.
  - by destruct (moveTypeToOneSide_apart (fun _ => 0%Q) varSide numSide this Hapart).
  - intros rho.
    destruct (moveTypeToOneSide_apart rho varSide numSide this Hapart) as [_ Hd].
    by apply holds_difference.
Qed.

(** X14, witness: ["2x + 3 <= y + z"] with every term moved to the right,
    with 1 for every name. *)
Lemma moveTypeToOneSide_same_meaning_witness :
  let this :=
    Constraint.mk "<=" (Expression.mk [("x", 2%Q); ("1", 3%Q)])
      (Expression.mk [("y", 1%Q); ("z", 1%Q)]) 0%Q [] in
  let rho := fun name : string => 1%Q in
  Constraint.moveTypeToOneSide "right" "right" this =
    Constraint.mk "<=" (Expression.mk [])
      (Expression.mk [("y", 1%Q); ("z", 1%Q); ("x", (-2)%Q); ("1", (-3)%Q)])
      0%Q []
  /\ (holds rho (Constraint.moveTypeToOneSide "right" "right" this)
      <-> holds rho this).
Proof.
  intros this rho. split; [reflexivity|].
  destruct (moveTypeToOneSide_same_meaning "right" "right" this)
    as (_ & _ & _ & Hmeaning).
  destruct Hmeaning as [_ Hsame]; [|by apply Hsame].
  unfold names_apart. by apply (bool_decide_unpack _).
Defined.

(** ** Which side holds what after [moveTypeToOneSide] *)

Section moved_sides.

Implicit Types (a b : Expression.t).

Lemma switched_variables a b :
  let sides := Constraint.switchSides a b (@Expression.forEachVariable _) in
  only_constants sides.1
  /\ (only_variables b -> only_variables sides.2).
Proof.
  unfold Constraint.switchSides, Expression.forEachVariable.
  rewrite foldl_switch. cbn [fst snd]. split.
  - unfold only_constants. cbn [Expression.terms].
    eapply Forall_impl; [apply moved_are_gone|].
    intros kv Hkv. by apply dec_stable.
  - intros Hb. apply (foldl_addTerm_keys (fun k => k <> "1")); [|done].
    apply Forall_forall. by intros kv [? _]%list_elem_of_filter.
Qed.

Lemma switched_constants a b :
  let sides := Constraint.switchSides a b (@Expression.forEachConstant _) in
  only_variables sides.1
  /\ (only_constants a -> Expression.terms sides.1 = [])
  /\ (only_constants b -> only_constants sides.2).
Proof.
  unfold Constraint.switchSides, Expression.forEachConstant.
  rewrite foldl_switch. cbn [fst snd]. split; [|split].
  - unfold only_variables. cbn [Expression.terms].
    eapply Forall_impl; [apply moved_are_gone|].
    intros kv Hkv. exact Hkv.
  - intros Ha. cbn [Expression.terms]. apply filter_none.
    apply Forall_forall. intros kv Hin Hout. apply Hout.
    apply (list_elem_of_fmap_2 fst). apply list_elem_of_filter. split; [|done].
    unfold only_constants in Ha. rewrite Forall_forall in Ha. by apply Ha.
  - intros Hb. apply (foldl_addTerm_keys (fun k => k = "1")); [|done].
    apply Forall_forall. by intros kv [? _]%list_elem_of_filter.
Qed.

End moved_sides.

(** X15. After [moveTypeToOneSide(varSide, numSide)], for any two words:
    if [varSide] holds [left] or [right], the side it does not name has no
    variable left; if [numSide] holds [left] or [right], the side it does
    not name has no constant left; if both words name the same side, the
    other side has no term at all; and if neither word holds [left] or
    [right], the constraint is returned as it is.  A word that holds
    [left] names the left side, also when it holds [right] too. *)
Theorem moveTypeToOneSide_sides_for_any_words (varSide numSide : string)
    (this : Constraint.t) :
  let that := Constraint.moveTypeToOneSide varSide numSide this in
  (Constraint.left_or_right varSide = true ->
     only_constants (other_side varSide that))
  /\ (Constraint.left_or_right numSide = true ->
     only_variables (other_side numSide that))
  /\ (Constraint.left_or_right varSide = true ->
      Constraint.left_or_right numSide = true ->
      includes "left" varSide = includes "left" numSide ->
      Expression.terms (other_side varSide that) = [])
  /\ (Constraint.left_or_right varSide = false ->
      Constraint.left_or_right numSide = false ->
      that = this).
Proof.
  intros that. unfold that, Constraint.moveTypeToOneSide, other_side.
  repeat split.
  - intros ->.
    destruct (Constraint.left_or_right numSide),
      (includes "left" varSide), (includes "left" numSide);
      unfold Constraint.getSwappedSides, Constraint.putSwappedSides;
      cbn [negb fst snd]; fields;
      repeat match goal with
        | |- context [Constraint.switchSides ?a ?b (@Expression.forEachVariable _)] =>
            let H := fresh in
            destruct (switched_variables a b) as [H _]; revert H;
            generalize (Constraint.switchSides a b (@Expression.forEachVariable _))
        end;
      intros vars Hvars;
      try exact Hvars;
      try (destruct (switched_constants vars.2 vars.1) as (_ & _ & Hn); by apply Hn);
      try (destruct (switched_constants vars.1 vars.2) as (Hn & Hempty & _);
           unfold only_constants; by rewrite (Hempty Hvars)).
  - intros ->.
    destruct (Constraint.left_or_right varSide), (includes "left" numSide);
      unfold Constraint.getSwappedSides, Constraint.putSwappedSides;
      cbn [negb fst snd]; fields;
      match goal with
      | |- context [Constraint.switchSides ?a ?b (@Expression.forEachConstant _)] =>
          destruct (switched_constants a b) as [H _]; exact H
      end.
  - intros -> -> <-.
    destruct (includes "left" varSide);
      unfold Constraint.getSwappedSides, Constraint.putSwappedSides;
      cbn [negb fst snd]; fields;
      match goal with
      | |- context [Constraint.switchSides ?a ?b (@Expression.forEachVariable _)] =>
          let H := fresh in
          destruct (switched_variables a b) as [H _]; revert H;
          generalize (Constraint.switchSides a b (@Expression.forEachVariable _))
      end;
      intros vars Hvars;
      destruct (switched_constants vars.1 vars.2) as (_ & Hempty & _);
      by apply Hempty.
  - by intros -> ->.
Qed.

(** X15, witness: ["3 + x <= y + 2"] with the words ["to the left"] for
    both kinds of term, which leaves the right side empty. *)
Lemma moveTypeToOneSide_sides_for_any_words_witness :
  let this :=
    Constraint.mk "<=" (Expression.mk [("1", 3%Q); ("x", 1%Q)])
      (Expression.mk [("y", 1%Q); ("1", 2%Q)]) 0%Q [] in
  Expression.terms
    (Constraint.rightSide
       (Constraint.moveTypeToOneSide "to the left" "to the left" this)) = [].
Proof.
  intros this.
  destruct (moveTypeToOneSide_sides_for_any_words "to the left" "to the left" this)
    as (_ & _ & Hempty & _).
  exact (Hempty eq_refl eq_refl eq_refl).
Defined.

(** ** What [normalize] says *)

(** X16. On a constraint in which no term name occurs twice, with 1 for
    the constant: when the comparison given is not strict, the constraint
    that [normalize()] returns has the same comparison and holds exactly
    when the constraint given holds; when it is strict, the constraint
    returned implies the one given as soon as the constant of the right
    side has moved by the sum with the epsilon. *)
Theorem normalize_meaning (rho : string -> Q) (this : Constraint.t) :
  names_apart this ->
  (rho "1" == 1)%Q ->
  let moved := Constraint.moveTypeToOneSide "left" "right" this in
  let before := Expression.getTermValue "1" (Constraint.rightSide moved) in
  let after :=
    Expression.getTermValue "1" (Constraint.rightSide (Constraint.normalize this)) in
  (Constraint.comparison this <> "<" -> Constraint.comparison this <> ">" ->
     Constraint.comparison (Constraint.normalize this) = Constraint.comparison this
     /\ (holds rho (Constraint.normalize this) <-> holds rho this))
  /\ (Constraint.comparison this = "<" -> (after < before)%Q ->
      holds rho (Constraint.normalize this) -> holds rho this)
  /\ (Constraint.comparison this = ">" -> (before < after)%Q ->
      holds rho (Constraint.normalize this) -> holds rho this).
Proof.
  intros Hapart Hone moved before after. subst before after.
  unfold Constraint.normalize. fold moved.
  destruct (moveTypeToOneSide_fields "left" "right" this) as (Hc & _ & _).
  destruct (moveTypeToOneSide_apart rho "left" "right" this Hapart) as [_ Hd].
  cbn zeta in Hc, Hd. fold moved in Hc, Hd.
  pose proof (holds_difference rho this moved Hc Hd) as Hsame.
  split; [|split].
  - intros H1 H2. unfold Constraint.removeStrictInEquality. rewrite Hc.
    by rewrite (proj2 (String.eqb_neq _ _) H1), (proj2 (String.eqb_neq _ _) H2).
  - intros Hlt. rewrite <- Hc in Hlt.
    assert (Constraint.removeStrictInEquality moved =
            Constraint.set_rightSide
              (Expression.addTerm "1" (- Constraint.EPSILON)%Q
                 (Constraint.rightSide moved))
              (Constraint.set_comparison (Constraint.comparison moved +:+ "=")
                 moved)) as ->.
    { unfold Constraint.removeStrictInEquality. by rewrite Hlt. }
    intros Hmoved Hholds. apply Hsame.
    destruct (relaxed_implies_strict rho moved (- Constraint.EPSILON)%Q Hone)
      as [Himplies _].
    by apply Himplies.
  - intros Hgt. rewrite <- Hc in Hgt.
    assert (Constraint.removeStrictInEquality moved =
            Constraint.set_rightSide
              (Expression.addTerm "1" Constraint.EPSILON
                 (Constraint.rightSide moved))
              (Constraint.set_comparison (Constraint.comparison moved +:+ "=")
                 moved)) as ->.
    { unfold Constraint.removeStrictInEquality. by rewrite Hgt. }
    intros Hmoved Hholds. apply Hsame.
    destruct (relaxed_implies_strict rho moved Constraint.EPSILON Hone)
      as [_ Himplies].
    by apply Himplies.
Qed.

(** X16, witness: ["2x + 3 <= y"] and ["2x + 3 < y"], with 1 for [x] and
    for the constant and 6 for [y]. *)
Lemma normalize_meaning_witness :
  let le :=
    Constraint.mk "<=" (Expression.mk [("x", 2%Q); ("1", 3%Q)])
      (Expression.mk [("y", 1%Q)]) 0%Q [] in
  let lt := Constraint.set_comparison "<" le in
  let rho := fun name : string => if String.eqb name "y" then 6%Q else 1%Q in
  (holds rho (Constraint.normalize le) <-> holds rho le)
  /\ holds rho lt.
Proof.
  intros le lt rho.
  assert (names_apart le) as Hle by (unfold names_apart; by apply (bool_decide_unpack _)).
  assert (names_apart lt) as Hlt by (unfold names_apart; by apply (bool_decide_unpack _)).
  destruct (normalize_meaning rho le Hle) as (Hsame & _); [reflexivity|].
  destruct (normalize_meaning rho lt Hlt) as (_ & Himplies & _); [reflexivity|].
  split.
  - by apply Hsame.
  - apply Himplies; [done|reflexivity|]. vm_compute. discriminate.
Defined.

(** ** Scaling and negating *)

Lemma scale_sides (rho : string -> Q) (factor : Q) (this : Constraint.t) :
  let that := Constraint.scale factor this in
  Constraint.comparison that = Constraint.comparison this
  /\ (value_of rho (Expression.terms (Constraint.leftSide that)) ==
      value_of rho (Expression.terms (Constraint.leftSide this)) * factor)%Q
  /\ (value_of rho (Expression.terms (Constraint.rightSide that)) ==
      value_of rho (Expression.terms (Constraint.rightSide this)) * factor)%Q.
Proof.
  unfold Constraint.scale, Expression.scale. fields.
  repeat split; apply value_of_scale.
Qed.

Lemma Qscale_compare (l r f : Q) :
  (0 < f)%Q ->
  ((l * f < r * f)%Q <-> (l < r)%Q)
  /\ ((l * f <= r * f)%Q <-> (l <= r)%Q)
  /\ ((l * f == r * f)%Q <-> (l == r)%Q).
Proof.
  intros Hf. split; [|split].
  - by apply Qmult_lt_r.
  - by apply Qmult_le_r.
  - apply Qmult_inj_r. lra.
Qed.

Lemma Qscale_compare_negative (l r f : Q) :
  (f < 0)%Q ->
  ((l * f < r * f)%Q <-> (r < l)%Q)
  /\ ((l * f <= r * f)%Q <-> (r <= l)%Q)
  /\ ((l * f == r * f)%Q <-> (r == l)%Q).
Proof.
  intros Hf.
  destruct (Qscale_compare r l (- f)) as (Hlt & Hle & Heq); [lra|].
  assert (forall a, a * - f == - (a * f))%Q as Hneg by (intros; ring).
  rewrite !Hneg in Hlt, Hle, Heq.
  revert Hlt Hle Heq. generalize (l * f)%Q (r * f)%Q. intros x y Hlt Hle Heq.
  repeat split; intros H;
    first [ apply Hlt | apply Hle | apply Heq
          | apply Hlt in H | apply Hle in H | apply Heq in H ]; lra.
Qed.

Lemma scale_by_negative (rho : string -> Q) (factor : Q) (this : Constraint.t) :
  (factor < 0)%Q ->
  holds rho (Constraint.scale factor this) <-> holds rho (mirrored this).
Proof.
  destruct (scale_sides rho factor this) as (Hc & Hl & Hr). cbn zeta in Hc, Hl, Hr.
  intros Hf. unfold holds, mirrored. rewrite Hc. fields.
  revert Hl Hr.
  generalize (value_of rho (Expression.terms
                (Constraint.leftSide (Constraint.scale factor this)))),
             (value_of rho (Expression.terms
                (Constraint.rightSide (Constraint.scale factor this)))).
  intros l' r' Hl Hr.
  destruct (Qscale_compare_negative
              (value_of rho (Expression.terms (Constraint.leftSide this)))
              (value_of rho (Expression.terms (Constraint.rightSide this)))
              factor Hf) as (Hlt & Hle & Heq).
  destruct (Qscale_compare_negative
              (value_of rho (Expression.terms (Constraint.rightSide this)))
              (value_of rho (Expression.terms (Constraint.leftSide this)))
              factor Hf) as (Hgt & Hge & _).
  repeat (destruct (String.eqb _ _); [by rewrite Hl, Hr|]). done.
Qed.

(** X19. What [negateComparison()] returns on each of the four
    inequalities is an inequality of the same direction between the sides
    given, strict where the given one was not and not strict where it
    was; on any other comparison that is no name of [Object.prototype],
    such as ["="] and the empty comparison of the constructor, it returns
    the constraint as it is. *)
Theorem negateComparison_meaning (rho : string -> Q) (this : Constraint.t) :
  let l := value_of rho (Expression.terms (Constraint.leftSide this)) in
  let r := value_of rho (Expression.terms (Constraint.rightSide this)) in
  let that := Constraint.negateComparison this in
  (Constraint.comparison this = "<" -> holds rho that <-> (l <= r)%Q)
  /\ (Constraint.comparison this = "<=" -> holds rho that <-> (l < r)%Q)
  /\ (Constraint.comparison this = ">" -> holds rho that <-> (r <= l)%Q)
  /\ (Constraint.comparison this = ">=" -> holds rho that <-> (r < l)%Q)
  /\ (Constraint.comparison this ∉ ["<"; "<="; ">"; ">="] ->
      inherited (Constraint.comparison this) = false ->
      that = this).
Proof.
  intros l r that. unfold that, l, r, Constraint.negateComparison.
  destruct oppositeCompare_table as (Hlt & Hgt & Hle & Hge & _).
  split; [|split; [|split; [|split]]];
    try (intros Hc; rewrite Hc, ?Hlt, ?Hgt, ?Hle, ?Hge;
         unfold holds, Constraint.inverse, Expression.inverse, Expression.scale;
         fields; cbn [String.eqb Ascii.eqb Bool.eqb];
         rewrite !value_of_scale; split; intros; lra).
  intros Hout _.
  destruct (Constraint.oppositeCompare !! Constraint.comparison this)
    as [opposite|] eqn:E; [|done].
  exfalso. apply Hout. unfold Constraint.oppositeCompare in E.
  apply lookup_insert_Some in E as [[<- _]|[_ E]]; [repeat constructor|].
  apply lookup_insert_Some in E as [[<- _]|[_ E]]; [repeat constructor|].
  apply lookup_insert_Some in E as [[<- _]|[_ E]]; [repeat constructor|].
  apply lookup_singleton_Some in E as [<- _]. repeat constructor.
Qed.

(** X19, witness: the negation of ["x >= 4"] is read as ["x > 4"]; with 5
    for [x] both hold, and with 4 for [x] only the first. *)
Lemma negateComparison_meaning_witness :
  let this :=
    Constraint.mk ">=" (Expression.mk [("x", 1%Q)])
      (Expression.mk [("1", 4%Q)]) 0%Q [] in
  let five := fun name : string => if String.eqb name "x" then 5%Q else 1%Q in
  let four := fun name : string => if String.eqb name "x" then 4%Q else 1%Q in
  holds five this /\ holds five (Constraint.negateComparison this)
  /\ holds four this /\ ~ holds four (Constraint.negateComparison this).
Proof.
  intros this five four.
  destruct (negateComparison_meaning five this) as (_ & _ & _ & Hfive & _).
  destruct (negateComparison_meaning four this) as (_ & _ & _ & Hfour & _).
  split; [|split; [|split]].
  - vm_compute. discriminate.
  - apply (Hfive eq_refl). reflexivity.
  - vm_compute. discriminate.
  - intros Hn. apply (Hfour eq_refl) in Hn. vm_compute in Hn. discriminate.
Defined.

(** X20. [inverse()] undoes itself, and the constraint it returns says
    what the given one says with its two sides exchanged. *)
Theorem inverse_meaning (this : Constraint.t) :
  Constraint.inverse (Constraint.inverse this) = this
  /\ forall rho, holds rho (Constraint.inverse this) <-> holds rho (mirrored this).
Proof.
  split.
  - unfold Constraint.inverse. fields. rewrite !Expression_inverse_inverse.
    by destruct this.
  - intros rho. by apply (scale_by_negative rho (-1) this).
Qed.

(** ** Moving one term, continued *)

(** X21. On a constraint in which no term name occurs twice, on one side
    or on both, [varSwitchSide(name, moveTo)] takes no sum of
    coefficients, and whatever numbers the names stand for, the
    constraint returned holds exactly when the one given does, whatever
    [name] and [moveTo] are. *)
Theorem varSwitchSide_same_meaning (rho : string -> Q) (name moveTo : string)
    (this : Constraint.t) :
  names_apart this ->
  holds rho (Constraint.varSwitchSide name moveTo this) <-> holds rho this.
Proof.
  intros Hapart.
  assert (forall key (a b : Expression.t),
            NoDup ((Expression.terms a).*1 ++ (Expression.terms b).*1) ->
            Expression.hasTerm key a = true ->
            (value_of rho
               (Expression.add_to key (- Expression.getTermValue key a)
                  (Expression.terms b))
             - value_of rho (filter (fun kv => kv.1 <> key) (Expression.terms a))
             == value_of rho (Expression.terms b) - value_of rho (Expression.terms a))%Q)
    as Hmove.
  { intros key a b (Ha & Hab & _)%NoDup_app Hhas%hasTerm_true.
    rewrite add_to_absent, value_of_app, value_of_removed by first
      [ done
      | apply own_None, Forall_forall; intros [k v] Hin Heq; simpl in Heq;
        subst k; apply (Hab key Hhas);
        by apply (list_elem_of_fmap_2 fst _ (key, v)) ].
    unfold Expression.getTermValue. simpl. lra. }
  unfold Constraint.varSwitchSide.
  destruct (negb _); [done|].
  generalize (if isNaN name then name else "1") as key. intros key.
  destruct (String.eqb "left" moveTo); cbn [negb].
  - destruct (Expression.hasTerm key (Constraint.rightSide this)) eqn:Hhas; [|done].
    apply holds_difference; [done|].
    unfold Expression.removeTerm. fields.
    apply names_apart_swap in Hapart.
    pose proof (Hmove key _ _ Hapart Hhas). lra.
  - destruct (Expression.hasTerm key (Constraint.leftSide this)) eqn:Hhas; [|done].
    apply holds_difference; [done|].
    unfold Expression.removeTerm. fields.
    pose proof (Hmove key _ _ Hapart Hhas). lra.
Qed.

(** X21, witness: ["x + 2 <= y"], moving [x] to the right, with 1 for
    every name. *)
Lemma varSwitchSide_same_meaning_witness :
  let this :=
    Constraint.mk "<=" (Expression.mk [("x", 1%Q); ("1", 2%Q)])
      (Expression.mk [("y", 1%Q)]) 0%Q [] in
  let rho := fun name : string => 1%Q in
  holds rho (Constraint.varSwitchSide "x" "right" this) <-> holds rho this.
Proof.
  intros this rho.
  apply (varSwitchSide_same_meaning rho "x" "right" this).
  unfold names_apart. by apply (bool_decide_unpack _).
Defined.

(** X22. The direction of [varSwitchSide] is read in two ways: any word
    that holds [left] or [right] is accepted, but only the word ["left"]
    itself moves the term to the left; every other accepted word, such as
    ["to the left"], moves it to the right. *)
Theorem varSwitchSide_direction (name moveTo : string) (this : Constraint.t) :
  Constraint.left_or_right moveTo = true ->
  moveTo <> "left" ->
  Constraint.varSwitchSide name moveTo this =
  Constraint.varSwitchSide name "right" this.
Proof.
  intros Hword Hne. unfold Constraint.varSwitchSide. rewrite Hword.
  assert (String.eqb "left" moveTo = false) as ->.
  { apply String.eqb_neq. intros <-. by apply Hne. }
  reflexivity.
Qed.

(** X22, witness: in ["x <= y"], moving [y] ["to the left"] gives what
    moving it to the right gives, nothing, as [y] is on the right; the
    term [x] is moved to the right instead. *)
Lemma varSwitchSide_direction_witness :
  let this :=
    Constraint.mk "<=" (Expression.mk [("x", 1%Q)])
      (Expression.mk [("y", 1%Q)]) 0%Q [] in
  Constraint.varSwitchSide "y" "to the left" this = this
  /\ Constraint.varSwitchSide "x" "to the left" this =
     Constraint.mk "<=" (Expression.mk [])
       (Expression.mk [("y", 1%Q); ("x", (-1)%Q)]) 0%Q [].
Proof.
  intros this.
  rewrite !(varSwitchSide_direction _ "to the left" this); [|done..].
  split; reflexivity.
Defined.

(** ** Trimming *)

Lemma drop_while_split (p : ascii -> bool) (str : string) :
  exists before,
    str = before +:+ drop_while p str /\ all_chars p before = true.
Proof.
  induction str as [|c rest (before & Hsplit & Hbefore)]; simpl.
  - by exists "".
  - destruct (p c) eqn:Hc.
    + exists (String c before). rewrite append_cons, <- Hsplit. simpl.
      by rewrite Hc, Hbefore.
    + by exists "".
Qed.

Lemma drop_while_head (p : ascii -> bool) (str : string) (c : ascii) (rest : string) :
  drop_while p str = String c rest -> p c = false.
Proof.
  induction str as [|d str IH]; simpl; [done|].
  destruct (p d) eqn:Hd; [done|]. by intros [= <- _].
Qed.

Lemma remove_trailing_spaces_cons (c : ascii) (rest : string) :
  remove_trailing_spaces (String c rest) =
  if is_space c && all_chars is_space rest then ""
  else String c (remove_trailing_spaces rest).
Proof. reflexivity. Qed.

Lemma remove_trailing_spaces_split (str : string) :
  exists after,
    str = remove_trailing_spaces str +:+ after /\ all_chars is_space after = true.
Proof.
  induction str as [|c rest (after & Hsplit & Hafter)]; [by exists ""|].
  rewrite remove_trailing_spaces_cons.
  destruct (is_space c && all_chars is_space rest) eqn:Hall.
  - exists (String c rest). by rewrite append_nil_l.
  - exists after. by rewrite append_cons, <- Hsplit.
Qed.

Lemma all_chars_remove_trailing_spaces (str : string) :
  all_chars is_space (remove_trailing_spaces str) = all_chars is_space str.
Proof.
  induction str as [|c rest IH]; [done|].
  rewrite remove_trailing_spaces_cons.
  destruct (is_space c) eqn:Hc, (all_chars is_space rest) eqn:Hrest;
    simpl; rewrite ?Hc, ?IH; done.
Qed.

Lemma remove_trailing_spaces_idempotent (str : string) :
  remove_trailing_spaces (remove_trailing_spaces str) = remove_trailing_spaces str.
Proof.
  induction str as [|c rest IH]; [done|].
  rewrite remove_trailing_spaces_cons.
  destruct (is_space c && all_chars is_space rest) eqn:Hall; [done|].
  rewrite remove_trailing_spaces_cons, all_chars_remove_trailing_spaces, Hall.
  by rewrite IH.
Qed.

Lemma remove_trailing_spaces_last (str body : string) (c : ascii) :
  remove_trailing_spaces str = body +:+ String c "" -> is_space c = false.
Proof.
  revert body. induction str as [|a rest IH]; intros body.
  - by destruct body.
  - rewrite remove_trailing_spaces_cons.
    destruct (is_space a && all_chars is_space rest) eqn:Hall.
    + by destruct body.
    + destruct body as [|b body].
      * rewrite append_nil_l. intros [= -> Hrest].
        pose proof (all_chars_remove_trailing_spaces rest) as Hsame.
        rewrite Hrest in Hsame. simpl in Hsame. rewrite <- Hsame in Hall.
        by destruct (is_space c).
      * rewrite append_cons. intros [= _ Hrest]. by apply (IH body).
Qed.

Lemma remove_trailing_spaces_head (str : string) (c : ascii) (rest : string) :
  remove_trailing_spaces str = String c rest ->
  exists rest', str = String c rest'.
Proof.
  destruct str as [|a str]; [done|].
  rewrite remove_trailing_spaces_cons. destruct (_ && _); [done|].
  intros [= -> _]. by eexists.
Qed.

(** X23. The [trim] that part_000 gives to engines without one removes
    white space at the two ends only: the text given is the text returned
    between two runs of white space; the text returned neither starts nor
    ends with a white space; and trimming it again changes nothing. *)
Theorem String_prototype_trim_ends (this : string) :
  let trimmed := String_prototype_trim this in
  (exists before after,
     this = before +:+ trimmed +:+ after
     /\ all_chars is_space before = true
     /\ all_chars is_space after = true)
  /\ (forall c rest, trimmed = String c rest -> is_space c = false)
  /\ (forall body c, trimmed = body +:+ String c "" -> is_space c = false)
  /\ String_prototype_trim trimmed = trimmed.
Proof.
  intros trimmed. unfold trimmed, String_prototype_trim.
  assert (forall c rest,
            remove_trailing_spaces (drop_while is_space this) = String c rest ->
            is_space c = false) as Hhead.
  { intros c rest [rest' Hrest]%remove_trailing_spaces_head.
    by apply (drop_while_head _ _ _ _ Hrest). }
  split; [|split; [|split]].
  - destruct (drop_while_split is_space this) as (before & Hsplit & Hbefore).
    destruct (remove_trailing_spaces_split (drop_while is_space this))
      as (after & Hsplit' & Hafter).
    exists before, after. by rewrite <- Hsplit', <- Hsplit.
  - exact Hhead.
  - intros body c. apply remove_trailing_spaces_last.
  - destruct (remove_trailing_spaces (drop_while is_space this))
      as [|c rest] eqn:E; [done|].
    cbn [drop_while]. rewrite (Hhead c rest eq_refl).
    rewrite <- E. apply remove_trailing_spaces_idempotent.
Qed.

(** X23, witness: a text with white space at both ends and inside. *)
Lemma String_prototype_trim_ends_witness :
  String_prototype_trim "  a b  " = "a b"
  /\ is_space "b" = false.
Proof.
  split; [reflexivity|].
  destruct (String_prototype_trim_ends "  a b  ") as (_ & _ & Hlast & _).
  by apply (Hlast "a " "b"%char).
Defined.
